(** * A shallow embedding of the RDB parser of rdb-rs (src/parser.rs)

    The input is a forward-only byte source, modelled as the list of the
    bytes not yet consumed.  The parser methods thread a state made of that
    input, the events the formatter has received so far and the field
    [last_expiretime].  A [Result] of the source is [res]; an io error of
    [byteorder]/[read_exact] (the source ended) is [ShortRead], an
    [RdbError::Other] is [Other], and a [panic!] (or a failed [unwrap]) is
    [Panic], so that a panic is an observable outcome and not an error value.

    Integer arithmetic follows Rust's release profile (wrapping); none of the
    inputs below reaches an overflow. *)

From Stdlib Require Import ZArith List String Bool Lia.
From Stdlib Require Import Strings.Byte.
Import ListNotations.
Open Scope Z_scope.

(** ** Results and the state monad *)

Inductive RdbError : Type :=
| ShortRead : RdbError
| Other : string -> RdbError
| Panic : string -> RdbError.

Inductive res (A : Type) : Type :=
| Ok : A -> res A
| Err : RdbError -> res A.
Arguments Ok {A} _.
Arguments Err {A} _.

Definition is_panic {A} (r : res A) : bool :=
  match r with Err (Panic _) => true | _ => false end.

Definition ST (S A : Type) : Type := S -> res (A * S).

Definition ret {S A} (a : A) : ST S A := fun s => Ok (a, s).

Definition bind {S A B} (m : ST S A) (k : A -> ST S B) : ST S B :=
  fun s => match m s with
           | Ok (a, s') => k a s'
           | Err e => Err e
           end.

Definition fail {S A} (e : RdbError) : ST S A := fun _ => Err e.

Notation "x <- m ;; k" := (bind m (fun x => k))
  (at level 61, m at next level, right associativity).
Notation "' p <- m ;; k" := (bind m (fun x => match x with p => k end))
  (at level 61, p pattern, m at next level, right associativity).
Notation "m ;; k" := (bind m (fun _ => k))
  (at level 61, right associativity).

(** [for _ in 0..n { body }] and [while n > 0 { body; n -= 1 }]. *)
Fixpoint repeatM {S} (n : nat) (body : ST S unit) : ST S unit :=
  match n with
  | O => ret tt
  | S n' => body ;; repeatM n' body
  end.

(** The [unwrap_or_panic!] macro of the crate: an [Err] becomes a panic. *)
Definition unwrap_or_panic {S A} (m : ST S A) : ST S A :=
  fun s => match m s with
           | Err _ => Err (Panic "unwrap_or_panic")
           | r => r
           end.

(** ** Byte primitives over a reader ([Read] and [ReadBytesExt]) *)

Definition RM (A : Type) : Type := ST (list byte) A.

Definition u8 (b : byte) : Z := Z.of_N (Byte.to_N b).

(** Two's complement reading of a [w]-bit pattern. *)
Definition to_signed (w v : Z) : Z :=
  if v <? 2 ^ (w - 1) then v else v - 2 ^ w.

Fixpoint le_value (bs : list byte) : Z :=
  match bs with
  | [] => 0
  | b :: bs' => u8 b + 256 * le_value bs'
  end.

Definition be_value (bs : list byte) : Z := le_value (rev bs).

(** [read_exact] of std and of the crate's helper: exactly [n] bytes or an
    io error.  Modelled from the spec: [helper::read_exact] is not in src/;
    the spec says "read exactly [length] bytes" and that a source ending
    mid-field is [ShortRead]. *)
Definition read_exact (n : Z) : RM (list byte) :=
  fun i => if (n <=? Z.of_nat (List.length i)) && (0 <=? n)
           then Ok (firstn (Z.to_nat n) i, skipn (Z.to_nat n) i)
           else Err ShortRead.

(** [Read::read] into a buffer of [n] bytes on an in-memory source: it
    fills as much of the buffer as the source has. *)
Definition read_partial (n : nat) : RM (list byte) :=
  fun i => Ok (firstn n i, skipn n i).

Definition read_to_end : RM (list byte) := fun i => Ok (i, []).

Definition read_u8 : RM Z :=
  fun i => match i with
           | b :: i' => Ok (u8 b, i')
           | [] => Err ShortRead
           end.

Definition read_le (n : Z) : RM Z := bs <- read_exact n ;; ret (le_value bs).
Definition read_be (n : Z) : RM Z := bs <- read_exact n ;; ret (be_value bs).

Definition read_i8 : RM Z := v <- read_le 1 ;; ret (to_signed 8 v).
Definition read_i16_le : RM Z := v <- read_le 2 ;; ret (to_signed 16 v).
Definition read_u16_le : RM Z := read_le 2.
Definition read_i32_le : RM Z := v <- read_le 4 ;; ret (to_signed 32 v).
Definition read_u32_le : RM Z := read_le 4.
Definition read_u32_be : RM Z := read_be 4.
Definition read_i64_le : RM Z := v <- read_le 8 ;; ret (to_signed 64 v).
Definition read_u64_le : RM Z := read_le 8.
(** [read_f64::<LittleEndian>]: a float is kept as its IEEE-754 bit pattern. *)
Definition read_f64_le : RM Z := read_le 8.

(** ** Decimal rendering ([i32::to_string], [i64::to_string], [helper::int_to_vec]) *)

Fixpoint uint_bytes (u : Decimal.uint) : list byte :=
  match u with
  | Decimal.Nil => []
  | Decimal.D0 u' => "0"%byte :: uint_bytes u'
  | Decimal.D1 u' => "1"%byte :: uint_bytes u'
  | Decimal.D2 u' => "2"%byte :: uint_bytes u'
  | Decimal.D3 u' => "3"%byte :: uint_bytes u'
  | Decimal.D4 u' => "4"%byte :: uint_bytes u'
  | Decimal.D5 u' => "5"%byte :: uint_bytes u'
  | Decimal.D6 u' => "6"%byte :: uint_bytes u'
  | Decimal.D7 u' => "7"%byte :: uint_bytes u'
  | Decimal.D8 u' => "8"%byte :: uint_bytes u'
  | Decimal.D9 u' => "9"%byte :: uint_bytes u'
  end.

(** Modelled from the spec: [helper::int_to_vec] is not in src/; the spec
    says the integer is emitted as its decimal ASCII representation. *)
Definition int_to_vec (z : Z) : list byte :=
  match Z.to_int z with
  | Decimal.Pos u => uint_bytes u
  | Decimal.Neg u => "-"%byte :: uint_bytes u
  end.

Definition to_string := int_to_vec.

(** ** Wire constants (constants.rs is not in src/; values from the spec, section 6) *)

Module constant.
Definition RDB_6BITLEN := 0.
Definition RDB_14BITLEN := 1.
Definition RDB_ENCVAL := 3.
End constant.

Module encoding.
Definition INT8 := 0.
Definition INT16 := 1.
Definition INT32 := 2.
Definition LZF := 3.
End encoding.

Module encoding_type.
Definition STRING := 0.
Definition LIST := 1.
Definition SET := 2.
Definition ZSET := 3.
Definition HASH := 4.
Definition ZSET_2 := 5.
Definition HASH_ZIPMAP := 9.
Definition LIST_ZIPLIST := 10.
Definition SET_INTSET := 11.
Definition ZSET_ZIPLIST := 12.
Definition HASH_ZIPLIST := 13.
Definition LIST_QUICKLIST := 14.
End encoding_type.

Module op_code.
Definition AUX := 250.
Definition RESIZEDB := 251.
Definition EXPIRETIME_MS := 252.
Definition EXPIRETIME := 253.
Definition SELECTDB := 254.
Definition EOF := 255.
End op_code.

(** The IEEE-754 bit patterns of [f64::NAN], [f64::INFINITY] and
    [f64::NEG_INFINITY]. *)
Definition F64_NAN : Z := 9221120237041090560.
Definition F64_INFINITY : Z := 9218868437227405312.
Definition F64_NEG_INFINITY : Z := 18442240474082181120.

(** ** Events received by the formatter *)

Inductive EncodingType : Type :=
| LinkedList
| Hashtable
| Ziplist (raw_length : Z)
| Zipmap (raw_length : Z)
| Intset (raw_length : Z)
| Quicklist.

Inductive Type_ : Type := TString | TList | TSet | TSortedSet | THash.

Inductive ZiplistEntry : Type :=
| ZString (v : list byte)
| ZNumber (n : Z).

Inductive Event : Type :=
| StartRdb
| EndRdb
| StartDatabase (db : Z)
| EndDatabase (db : Z)
| Checksum (bs : list byte)
| Resizedb (db_size expires_size : Z)
| AuxField (key value : list byte)
| SetValue (key value : list byte) (expiry : option Z)
| StartList (key : list byte) (length : Z) (expiry : option Z) (enc : EncodingType)
| ListElement (key value : list byte)
| EndList (key : list byte)
| StartSet (key : list byte) (cardinality : Z) (expiry : option Z) (enc : EncodingType)
| SetElement (key member : list byte)
| EndSet (key : list byte)
| StartHash (key : list byte) (length : Z) (expiry : option Z) (enc : EncodingType)
| HashElement (key field value : list byte)
| EndHash (key : list byte)
| StartSortedSet (key : list byte) (length : Z) (expiry : option Z) (enc : EncodingType)
| SortedSetElement (key : list byte) (score : Z) (member : list byte)
| EndSortedSet (key : list byte).

(** The three predicates of a [Filter]. *)
Record Filter : Type := {
  matches_db : Z -> bool;
  matches_type : Z -> bool;
  matches_key : list byte -> bool
}.

(** The fields of [RdbParser] that change during [parse]: the input, what
    the formatter has received, and [last_expiretime]. *)
Record PState : Type := mkPState {
  input : list byte;
  events : list Event;
  last_expiretime : option Z
}.

Definition M (A : Type) : Type := ST PState A.

Definition liftI {A} (m : RM A) : M A :=
  fun s => match m (input s) with
           | Ok (a, i') => Ok (a, mkPState i' (events s) (last_expiretime s))
           | Err e => Err e
           end.

Definition liftR {A} (r : res A) : M A :=
  fun s => match r with Ok a => Ok (a, s) | Err e => Err e end.

Definition emit (e : Event) : M unit :=
  fun s => Ok (tt, mkPState (input s) (events s ++ [e]) (last_expiretime s)).

Definition get_expiretime : M (option Z) := fun s => Ok (last_expiretime s, s).

Definition set_expiretime (o : option Z) : M unit :=
  fun s => Ok (tt, mkPState (input s) (events s) o).

Definition input_length : M nat := fun s => Ok (List.length (input s), s).

(** A loop over an in-memory [Cursor] that is not the parser's input: the
    cursor is threaded by hand, the events go to the formatter. *)
Fixpoint iter_reader (n : nat) (body : list byte -> M (list byte))
  (reader : list byte) : M (list byte) :=
  match n with
  | O => ret reader
  | S n' => r <- body reader ;; iter_reader n' body r
  end.

(** ** Length prefixes and blobs *)

Definition read_length_with_encoding : RM (Z * bool) :=
  enc_type <- read_u8 ;;
  match Z.shiftr (Z.land enc_type 192) 6 with
  | 3 (* RDB_ENCVAL *) => ret (Z.land enc_type 63, true)
  | 0 (* RDB_6BITLEN *) => ret (Z.land enc_type 63, false)
  | 1 (* RDB_14BITLEN *) =>
      next_byte <- read_u8 ;;
      ret (Z.lor (Z.shiftl (Z.land enc_type 63) 8) next_byte, false)
  | _ => length <- read_u32_be ;; ret (length, false)
  end.

Definition read_length : RM Z :=
  '(length, _) <- read_length_with_encoding ;; ret length.

Section Parser.

(** [lzf::decompress(&data, real_length)]: an external crate, kept abstract;
    [None] is its [Err]. *)
Variable lzf_decompress : list byte -> Z -> option (list byte).
(** [str::parse::<f64>] after the UTF-8 view of the bytes, as an IEEE-754 bit
    pattern; [None] when the bytes are not a float (or not UTF-8). *)
Variable parse_f64 : list byte -> option Z.
(** [version::SUPPORTED_MINIMUM] and [version::SUPPORTED_MAXIMUM]
    (constants.rs is not in src/; the spec only says a range is declared). *)
Variables SUPPORTED_MINIMUM SUPPORTED_MAXIMUM : Z.

Definition read_blob : RM (list byte) :=
  '(length, is_encoded) <- read_length_with_encoding ;;
  if is_encoded then
    match length with
    | 0 (* INT8 *) => v <- read_i8 ;; ret (int_to_vec v)
    | 1 (* INT16 *) => v <- read_i16_le ;; ret (int_to_vec v)
    | 2 (* INT32 *) => v <- read_i32_le ;; ret (int_to_vec v)
    | 3 (* LZF *) =>
        compressed_length <- read_length ;;
        real_length <- read_length ;;
        data <- read_exact compressed_length ;;
        match lzf_decompress data real_length with
        | Some out => ret out
        | None => fail (Panic "called `Result::unwrap()` on an `Err` value")
        end
    | _ => fail (Panic "Unknown encoding")
    end
  else read_exact length.

Definition read_ziplist_metadata : RM (Z * Z * Z) :=
  zlbytes <- read_u32_le ;;
  zltail <- read_u32_le ;;
  zllen <- read_u16_le ;;
  ret (zlbytes, zltail, zllen).

(** [(x as i32) << n]: the shift keeps the low 32 bits. *)
Definition wrap_i32 (v : Z) : Z := to_signed 32 (v mod 2 ^ 32).
Definition shl_i32 (a n : Z) : Z := wrap_i32 (Z.shiftl a n).

(** The 24-bit integer path of [read_ziplist_entry]. *)
Definition ziplist_int24 (b0 b1 b2 : byte) : Z :=
  Z.shiftr
    (Z.lxor (Z.lxor (Z.lxor (shl_i32 (u8 b2) 24) (shl_i32 (u8 b1) 16))
                    (shl_i32 (u8 b0) 8)) 48) 8.

Definition read_ziplist_value (length : Z) : RM ZiplistEntry :=
  rawval <- read_exact length ;; ret (ZString rawval).

Definition read_ziplist_entry : RM ZiplistEntry :=
  byte <- read_u8 ;;
  (if byte =? 254 then
     bytes <- read_partial 4 ;;
     if Nat.eqb (List.length bytes) 4 then ret tt
     else fail (Other "Could not read 4 bytes to skip after ziplist length")
   else ret tt) ;;
  flag <- read_u8 ;;
  match Z.shiftr (Z.land flag 192) 6 with
  | 0 => read_ziplist_value (Z.land flag 63)
  | 1 => next_byte <- read_u8 ;;
         read_ziplist_value (Z.lor (Z.shiftl (Z.land flag 63) 8) next_byte)
  | 2 => length <- read_u32_be ;; read_ziplist_value length
  | _ =>
      match Z.shiftr (Z.land flag 240) 4 with
      | 12 => v <- read_i16_le ;; ret (ZNumber v)
      | 13 => v <- read_i32_le ;; ret (ZNumber v)
      | 14 => v <- read_i64_le ;; ret (ZNumber v)
      | 15 =>
          match Z.land flag 15 with
          | 0 => bytes <- read_partial 3 ;;
                 match bytes with
                 | [b0; b1; b2] => ret (ZNumber (ziplist_int24 b0 b1 b2))
                 | _ => fail (Other "Could not read enough bytes for 24bit number")
                 end
          | 14 => v <- read_i8 ;; ret (ZNumber v)
          | _ => ret (ZNumber (Z.land flag 15 - 1))
          end
      | _ => fail (Panic "Flag not handled")
      end
  end.

Definition read_ziplist_entry_string : RM (list byte) :=
  entry <- read_ziplist_entry ;;
  match entry with
  | ZString val => ret val
  | ZNumber val => ret (to_string val)
  end.

Definition read_zipmap_entry (next_byte : Z) : RM (list byte) :=
  elem_len <- (match next_byte with
               | 253 => unwrap_or_panic read_u32_le
               | 254 | 255 => fail (Panic "Invalid length value in zipmap")
               | _ => ret next_byte
               end) ;;
  read_exact elem_len.

(** ** The skip path *)

Definition skip (skip_bytes : Z) : RM unit := _ <- read_exact skip_bytes ;; ret tt.

Definition skip_blob : RM unit :=
  '(len, is_encoded) <- unwrap_or_panic read_length_with_encoding ;;
  skip_bytes <- (if is_encoded then
                   match len with
                   | 0 => ret 1
                   | 1 => ret 2
                   | 2 => ret 4
                   | 3 => compressed_length <- unwrap_or_panic read_length ;;
                          _ <- unwrap_or_panic read_length ;;
                          ret compressed_length
                   | _ => fail (Panic "Unknown encoding")
                   end
                 else ret len) ;;
  skip skip_bytes.

Definition skip_object (enc_type : Z) : RM unit :=
  blobs_to_skip <-
    (match enc_type with
     | 0 | 9 | 10 | 11 | 12 | 13 => ret 1
     | 1 | 2 | 14 => unwrap_or_panic read_length
     | 3 | 4 => n <- unwrap_or_panic read_length ;; ret ((n * 2) mod 2 ^ 32)
     | 5 => length <- read_length ;;
            repeatM (Z.to_nat length) (skip_blob ;; skip 8) ;;
            ret 0
     | _ => fail (Panic "Unknown encoding type")
     end) ;;
  repeatM (Z.to_nat blobs_to_skip) skip_blob.

Definition skip_key_and_object (enc_type : Z) : RM unit :=
  skip_blob ;; skip_object enc_type.


(** ** The value-type dispatcher (methods of [RdbParser]) *)

Definition read_linked_list (key : list byte) (typ : Type_) : M unit :=
  len <- liftI read_length ;;
  exp <- get_expiretime ;;
  (match typ with
   | TList => emit (StartList key len exp LinkedList)
   | TSet => emit (StartSet key len exp LinkedList)
   | _ => fail (Panic "Unknown encoding type for linked list")
   end) ;;
  repeatM (Z.to_nat len)
    (blob <- liftI read_blob ;; emit (ListElement key blob)) ;;
  match typ with
  | TList => emit (EndList key)
  | TSet => emit (EndSet key)
  | _ => fail (Panic "Unknown encoding type for linked list")
  end.

Definition read_sorted_set_type_2 (key : list byte) : M unit :=
  set_items <- liftI (unwrap_or_panic read_length) ;;
  exp <- get_expiretime ;;
  emit (StartSortedSet key set_items exp Hashtable) ;;
  repeatM (Z.to_nat set_items)
    (val <- liftI read_blob ;;
     score <- liftI read_f64_le ;;
     emit (SortedSetElement key score val)) ;;
  emit (EndSortedSet key).

Definition unwrap_f64 (o : option Z) : M Z :=
  match o with
  | Some f => ret f
  | None => fail (Panic "called `Result::unwrap()` on an `Err` value")
  end.

Definition read_sorted_set (key : list byte) : M unit :=
  set_items <- liftI (unwrap_or_panic read_length) ;;
  exp <- get_expiretime ;;
  emit (StartSortedSet key set_items exp Hashtable) ;;
  repeatM (Z.to_nat set_items)
    (val <- liftI read_blob ;;
     score_length <- liftI read_u8 ;;
     score <- (match score_length with
               | 253 => ret F64_NAN
               | 254 => ret F64_INFINITY
               | 255 => ret F64_NEG_INFINITY
               | _ => tmp <- liftI (read_exact score_length) ;;
                      unwrap_f64 (parse_f64 tmp)
               end) ;;
     emit (SortedSetElement key score val)) ;;
  emit (EndSortedSet key).

Definition read_hash (key : list byte) : M unit :=
  hash_items <- liftI read_length ;;
  exp <- get_expiretime ;;
  emit (StartHash key hash_items exp Hashtable) ;;
  repeatM (Z.to_nat hash_items)
    (field <- liftI read_blob ;;
     val <- liftI read_blob ;;
     emit (HashElement key field val)) ;;
  emit (EndHash key).

(** The last byte of an inner ziplist. *)
Definition check_end_byte (reader : list byte) (msg : string) : M unit :=
  '(last_byte, _) <- liftR (read_u8 reader) ;;
  if last_byte =? 255 then ret tt else fail (Other msg).

Definition read_list_ziplist (key : list byte) : M unit :=
  ziplist <- liftI read_blob ;;
  let raw_length := Z.of_nat (List.length ziplist) in
  '((_zlbytes, _zltail, zllen), reader) <- liftR (read_ziplist_metadata ziplist) ;;
  exp <- get_expiretime ;;
  emit (StartList key zllen exp (Ziplist raw_length)) ;;
  reader <- iter_reader (Z.to_nat zllen)
              (fun r => '(entry, r') <- liftR (read_ziplist_entry_string r) ;;
                        emit (ListElement key entry) ;; ret r') reader ;;
  check_end_byte reader "Invalid end byte of ziplist" ;;
  emit (EndList key).

Definition assert_even (n : Z) : M unit :=
  if n mod 2 =? 0 then ret tt
  else fail (Panic "assertion failed: zllen % 2 == 0").

Definition read_hash_ziplist (key : list byte) : M unit :=
  ziplist <- liftI read_blob ;;
  let raw_length := Z.of_nat (List.length ziplist) in
  '((_zlbytes, _zltail, zllen), reader) <- liftR (read_ziplist_metadata ziplist) ;;
  assert_even zllen ;;
  let zllen := zllen / 2 in
  exp <- get_expiretime ;;
  emit (StartHash key zllen exp (Ziplist raw_length)) ;;
  reader <- iter_reader (Z.to_nat zllen)
              (fun r => '(field, r1) <- liftR (read_ziplist_entry_string r) ;;
                        '(value, r2) <- liftR (read_ziplist_entry_string r1) ;;
                        emit (HashElement key field value) ;; ret r2) reader ;;
  check_end_byte reader "Invalid end byte of ziplist" ;;
  emit (EndHash key).

Definition read_sortedset_ziplist (key : list byte) : M unit :=
  ziplist <- liftI read_blob ;;
  let raw_length := Z.of_nat (List.length ziplist) in
  '((_zlbytes, _zltail, zllen), reader) <- liftR (read_ziplist_metadata ziplist) ;;
  exp <- get_expiretime ;;
  emit (StartSortedSet key zllen exp (Ziplist raw_length)) ;;
  assert_even zllen ;;
  let zllen := zllen / 2 in
  reader <- iter_reader (Z.to_nat zllen)
              (fun r => '(entry, r1) <- liftR (read_ziplist_entry_string r) ;;
                        '(score, r2) <- liftR (read_ziplist_entry_string r1) ;;
                        score <- unwrap_f64 (parse_f64 score) ;;
                        emit (SortedSetElement key score entry) ;; ret r2) reader ;;
  check_end_byte reader "Invalid end byte of ziplist" ;;
  emit (EndSortedSet key).

Definition read_quicklist_ziplist (key : list byte) : M unit :=
  ziplist <- liftI read_blob ;;
  '((_zlbytes, _zltail, zllen), reader) <- liftR (read_ziplist_metadata ziplist) ;;
  reader <- iter_reader (Z.to_nat zllen)
              (fun r => '(entry, r') <- liftR (read_ziplist_entry_string r) ;;
                        emit (ListElement key entry) ;; ret r') reader ;;
  check_end_byte reader "Invalid end byte of ziplist (quicklist)".

(** The [loop] of [read_hash_zipmap]; [length] is the [i32] counter.  Every
    iteration reads a byte of the cursor, so [1 + length reader] rounds
    bound it. *)
Fixpoint zipmap_loop (key : list byte) (fuel : nat) (length : Z)
  (reader : list byte) : M unit :=
  match fuel with
  | O => fail (Other "zipmap loop bound")
  | S fuel' =>
      '(next_byte, r1) <- liftR (read_u8 reader) ;;
      if next_byte =? 255 then ret tt
      else
        '(field, r2) <- liftR (read_zipmap_entry next_byte r1) ;;
        '(next_byte, r3) <- liftR (read_u8 r2) ;;
        '(_free, r4) <- liftR (read_u8 r3) ;;
        '(value, r5) <- liftR (read_zipmap_entry next_byte r4) ;;
        emit (HashElement key field value) ;;
        let length := if length >? 0 then length - 1 else length in
        if length =? 0 then
          check_end_byte r5 "Invalid end byte of zipmap"
        else zipmap_loop key fuel' length r5
  end.

Definition read_hash_zipmap (key : list byte) : M unit :=
  zipmap <- liftI read_blob ;;
  let raw_length := Z.of_nat (List.length zipmap) in
  '(zmlen, reader) <- liftR (read_u8 zipmap) ;;
  let '(length, size) := if zmlen <=? 254 then (zmlen, zmlen) else (-1, 0) in
  exp <- get_expiretime ;;
  emit (StartHash key size exp (Zipmap raw_length)) ;;
  zipmap_loop key (S (List.length reader)) length reader ;;
  emit (EndHash key).

Definition read_set_intset (key : list byte) : M unit :=
  intset <- liftI read_blob ;;
  let raw_length := Z.of_nat (List.length intset) in
  '(byte_size, r1) <- liftR (read_u32_le intset) ;;
  '(intset_length, reader) <- liftR (read_u32_le r1) ;;
  exp <- get_expiretime ;;
  emit (StartSet key intset_length exp (Intset raw_length)) ;;
  _ <- iter_reader (Z.to_nat intset_length)
         (fun r => '(val, r') <- liftR (match byte_size with
                                       | 2 => read_i16_le r
                                       | 4 => read_i32_le r
                                       | 8 => read_i64_le r
                                       | _ => Err (Panic "unhandled byte size in intset")
                                       end) ;;
                   emit (SetElement key (to_string val)) ;; ret r') reader ;;
  emit (EndSet key).

Definition read_quicklist (key : list byte) : M unit :=
  len <- liftI read_length ;;
  exp <- get_expiretime ;;
  emit (StartSet key 0 exp Quicklist) ;;
  repeatM (Z.to_nat len) (read_quicklist_ziplist key) ;;
  emit (EndSet key).

Definition read_type (key : list byte) (value_type : Z) : M unit :=
  match value_type with
  | 0 (* STRING *) => val <- liftI read_blob ;;
                      exp <- get_expiretime ;;
                      emit (SetValue key val exp)
  | 1 (* LIST *) => read_linked_list key TList
  | 2 (* SET *) => read_linked_list key TSet
  | 3 (* ZSET *) => read_sorted_set key
  | 5 (* ZSET_2 *) => read_sorted_set_type_2 key
  | 4 (* HASH *) => read_hash key
  | 9 (* HASH_ZIPMAP *) => read_hash_zipmap key
  | 10 (* LIST_ZIPLIST *) => read_list_ziplist key
  | 11 (* SET_INTSET *) => read_set_intset key
  | 12 (* ZSET_ZIPLIST *) => read_sortedset_ziplist key
  | 13 (* HASH_ZIPLIST *) => read_hash_ziplist key
  | 14 (* LIST_QUICKLIST *) => read_quicklist key
  | _ => fail (Panic "Value Type not implemented")
  end.

(** ** The frame driver *)

Definition RDB_MAGIC : list byte := list_byte_of_string "REDIS".

Definition verify_magic : RM unit :=
  magic <- read_partial 5 ;;
  if negb (Nat.eqb (List.length magic) 5)
  then fail (Other "Could not read enough bytes for the magic")
  else if if list_eq_dec Byte.byte_eq_dec magic RDB_MAGIC then true else false then ret tt
  else fail (Other "Invalid magic string").

(** [u8] subtraction wraps, as in a release build. *)
Definition verify_version : RM unit :=
  version <- read_partial 4 ;;
  match version with
  | [v0; v1; v2; v3] =>
      let digit b := (u8 b - 48) mod 256 in
      let version := digit v0 * 1000 + digit v1 * 100 + digit v2 * 10 + digit v3 in
      if (SUPPORTED_MINIMUM <=? version) && (version <=? SUPPORTED_MAXIMUM)
      then ret tt
      else fail (Other "Version RDB files are not supported")
  | _ => fail (Other "Could not read enough bytes for the version")
  end.

(** One iteration of the [loop] of [parse], given [last_database]: [None]
    when it breaks (after [EOF]), [Some db] with the new [last_database]
    otherwise. *)
Definition parse_step (filter : Filter) (last_database : Z) : M (option Z) :=
  next_op <- liftI read_u8 ;;
  match next_op with
  | 254 (* SELECTDB *) =>
      last_database <- liftI (unwrap_or_panic read_length) ;;
      (if matches_db filter last_database
       then emit (StartDatabase last_database) else ret tt) ;;
      ret (Some last_database)
  | 255 (* EOF *) =>
      emit (EndDatabase last_database) ;;
      emit EndRdb ;;
      checksum <- liftI read_to_end ;;
      (if Nat.ltb 0 (List.length checksum) then emit (Checksum checksum) else ret tt) ;;
      ret None
  | 252 (* EXPIRETIME_MS *) =>
      expiretime_ms <- liftI read_u64_le ;;
      set_expiretime (Some expiretime_ms) ;;
      ret (Some last_database)
  | 253 (* EXPIRETIME *) =>
      expiretime <- liftI read_u32_be ;;
      set_expiretime (Some (expiretime * 1000)) ;;
      ret (Some last_database)
  | 251 (* RESIZEDB *) =>
      db_size <- liftI read_length ;;
      expires_size <- liftI read_length ;;
      emit (Resizedb db_size expires_size) ;;
      ret (Some last_database)
  | 250 (* AUX *) =>
      auxkey <- liftI read_blob ;;
      auxval <- liftI read_blob ;;
      emit (AuxField auxkey auxval) ;;
      ret (Some last_database)
  | _ =>
      (if matches_db filter last_database then
         key <- liftI read_blob ;;
         if matches_type filter next_op && matches_key filter key
         then read_type key next_op
         else liftI (skip_object next_op)
       else liftI (skip_key_and_object next_op)) ;;
      set_expiretime None ;;
      ret (Some last_database)
  end.

(** The [loop] of [parse].  Every iteration reads its opcode byte, so
    [1 + length input] rounds bound it. *)
Fixpoint parse_loop (filter : Filter) (fuel : nat) (last_database : Z) : M unit :=
  match fuel with
  | O => fail (Other "parse loop bound")
  | S fuel' =>
      next <- parse_step filter last_database ;;
      match next with
      | None => ret tt
      | Some db => parse_loop filter fuel' db
      end
  end.

Definition parse (filter : Filter) : M unit :=
  liftI verify_magic ;;
  liftI verify_version ;;
  emit StartRdb ;;
  n <- input_length ;;
  parse_loop filter (S n) 0.

(** [RdbParser::new(input, formatter, filter).parse()]. *)
Definition run_parse (filter : Filter) (bytes : list byte) : res (unit * PState) :=
  parse filter (mkPState bytes [] None).

End Parser.

(** ** Reference definitions and concrete inputs used by the statements *)

(** The spec's reading of the 24-bit ziplist integer: the three bytes as a
    little-endian number, sign-extended from bit 23. *)
Definition sign_extend_24_le (b0 b1 b2 : byte) : Z :=
  let v := u8 b0 + 256 * u8 b1 + 65536 * u8 b2 in
  if v <? 2 ^ 23 then v else v - 2 ^ 24.

(** A computation that never ends in a panic. *)
Definition no_panic {S A} (m : ST S A) : Prop := forall s, is_panic (m s) = false.

(** A byte given by its value (values outside 0..255 are not used). *)
Definition bz (z : Z) : byte :=
  match Byte.of_N (Z.to_N z) with Some b => b | None => "000"%byte end.

Definition bl (l : list Z) : list byte := map bz l.

Definition start_state (bytes : list byte) : PState := mkPState bytes [] None.

Definition allow_all : Filter :=
  {| matches_db := fun _ => true; matches_type := fun _ => true;
     matches_key := fun _ => true |}.

Definition deny_all : Filter :=
  {| matches_db := fun _ => false; matches_type := fun _ => false;
     matches_key := fun _ => false |}.

(** Magic and version 9. *)
Definition rdb_header : list byte := list_byte_of_string "REDIS0009".

Definition key_k : list byte := list_byte_of_string "k".

(** A ZSET record (tag 3) with key "k" and one element "a" whose score is
    written with the special length byte 254 (+inf), then EOF. *)
Definition zset_inf_rdb : list byte :=
  rdb_header ++ bl [3; 1; 107; 1; 1; 97; 254; 255].

(** The payload of a ZSET_ZIPLIST record: a 16-byte ziplist with zllen = 2,
    the member "a" and the score 1 (an inline integer entry). *)
Definition zset_ziplist_payload : list byte :=
  bl [16; 16;0;0;0; 13;0;0;0; 2;0; 0;1;97; 3;242; 255].

(** The payload of a LIST_QUICKLIST record: one ziplist of one entry (the
    inline integer 1). *)
Definition quicklist_payload : list byte :=
  bl [1; 13; 13;0;0;0; 10;0;0;0; 1;0; 0;242; 255].

(** The payload of a HASH_ZIPMAP record: zmlen = 254 then 255 pairs of an
    empty field and an empty value (no free bytes), then the terminator:
    767 bytes behind a 14-bit length prefix. *)
Definition zipmap_255_pairs : list byte :=
  bl [254] ++ List.concat (List.repeat (bl [0; 0; 0]) 255) ++ bl [255].

Definition zipmap_payload : list byte := bl [66; 255] ++ zipmap_255_pairs.

(** The decompressor that always fails (only for inputs that never reach it). *)
Definition lzf_none : list byte -> Z -> option (list byte) := fun _ _ => None.
Definition parse_f64_zero : list byte -> option Z := fun _ => Some 0.
(** A decompressor that returns one byte whatever it is asked for. *)
Definition lzf_one_byte : list byte -> Z -> option (list byte) :=
  fun _ _ => Some (bl [1]).

(** The "iterate until the terminator" reading of a zipmap that the claim
    describes for zmlen = 254: the number of (field, value) pairs before
    the 0xFF byte, with one-byte lengths below 253 and one free byte. *)
Fixpoint zipmap_pairs_to_terminator (fuel : nat) (zm : list byte) : option nat :=
  match fuel, zm with
  | O, _ => None
  | _, [] => None
  | S f, b :: r =>
      if u8 b =? 255 then Some O
      else if 253 <=? u8 b then None
      else
        let r1 := skipn (Z.to_nat (u8 b)) r in
        match r1 with
        | vl :: _free :: r2 =>
            if 253 <=? u8 vl then None
            else option_map S (zipmap_pairs_to_terminator f (skipn (Z.to_nat (u8 vl)) r2))
        | _ => None
        end
  end.

(** ** Encoders of the RDB wire format, for the round-trip statements *)

Fixpoint le_bytes (k : nat) (v : Z) : list byte :=
  match k with
  | O => []
  | S k' => bz (v mod 256) :: le_bytes k' (v / 256)
  end.

Definition be_bytes (k : nat) (v : Z) : list byte := rev (le_bytes k v).

Definition encode_length (n : Z) : list byte :=
  if n <? 64 then [bz n]
  else if n <? 16384 then [bz (64 + n / 256); bz (n mod 256)]
  else bz 128 :: be_bytes 4 n.

Definition encode_blob (x : list byte) : list byte :=
  encode_length (Z.of_nat (List.length x)) ++ x.

Definition version_of (d0 d1 d2 d3 : byte) : Z :=
  (u8 d0 - 48) * 1000 + (u8 d1 - 48) * 100 + (u8 d2 - 48) * 10 + (u8 d3 - 48).

Definition ziplist_entry_str (e : byte * list byte) : list byte :=
  fst e :: bz (Z.of_nat (List.length (snd e))) :: snd e.

Definition ziplist_blob (zlbytes zltail : list byte) (zllen : Z) (entries tail : list byte)
  : list byte :=
  zlbytes ++ zltail ++ le_bytes 2 zllen ++ entries ++ bz 255 :: tail.

Definition zl_ok (e : byte * list byte) : Prop :=
  u8 (fst e) <> 254 /\ Z.of_nat (List.length (snd e)) < 64.

Definition ziplist_pair_str (fv : (byte * list byte) * (byte * list byte)) : list byte :=
  ziplist_entry_str (fst fv) ++ ziplist_entry_str (snd fv).


Definition blob_pair (fv : list byte * list byte) : list byte :=
  encode_blob (fst fv) ++ encode_blob (snd fv).

Definition zset2_entry (ms : list byte * Z) : list byte :=
  encode_blob (fst ms) ++ le_bytes 8 (snd ms).

Definition zset_entry (e : list byte * list byte * Z) : list byte :=
  let '(m, t, _) := e in encode_blob m ++ bz (Z.of_nat (List.length t)) :: t.

Definition intset_blob (byte_size : Z) (xs : list Z) (tail : list byte) : list byte :=
  le_bytes 4 byte_size ++ le_bytes 4 (Z.of_nat (List.length xs))
  ++ List.concat (map (le_bytes (Z.to_nat byte_size)) xs) ++ tail.

Definition zl_pair_ok (fv : (byte * list byte) * (byte * list byte)) : Prop :=
  zl_ok (fst fv) /\ zl_ok (snd fv).


Definition blob_ok (x : list byte) : Prop := Z.of_nat (List.length x) < 2 ^ 32.

Definition blob_pair_ok (fv : list byte * list byte) : Prop := blob_ok (fst fv) /\ blob_ok (snd fv).

Definition zset2_ok (ms : list byte * Z) : Prop := blob_ok (fst ms) /\ 0 <= snd ms < 2 ^ 64.



Definition zset_ok (pf : list byte -> option Z) (e : list byte * list byte * Z) : Prop :=
  let '(m, t, f) := e in
  blob_ok m /\ Z.of_nat (List.length t) < 253 /\ pf t = Some f.

Definition intset_ok (byte_size : Z) (x : Z) : Prop :=
  - 2 ^ (8 * byte_size - 1) <= x < 2 ^ (8 * byte_size - 1).



Definition checksum_events (cs : list byte) : list Event :=
  if Nat.ltb 0 (List.length cs) then [Checksum cs] else [].

(** [sfx i r]: [r] is what a reader leaves of the input [i]. *)
Definition sfx (i r : list byte) : Prop := exists p, i = p ++ r.

(** * Proofs *)

(** ** Monad reasoning *)

Lemma bind_inv {S A B} (m : ST S A) (k : A -> ST S B) s b s'' :
  bind m k s = Ok (b, s'') -> exists a s', m s = Ok (a, s') /\ k a s' = Ok (b, s'').
Proof. unfold bind. destruct (m s) as [[a s']|e]; [eauto|discriminate]. Qed.

Lemma bind_step {S A B} (m : ST S A) (k : A -> ST S B) s a s' :
  m s = Ok (a, s') -> bind m k s = k a s'.
Proof. unfold bind. intros ->. reflexivity. Qed.

Lemma unwrap_or_panic_ok {S A} (m : ST S A) s a s' :
  m s = Ok (a, s') -> unwrap_or_panic m s = Ok (a, s').
Proof. unfold unwrap_or_panic. intros ->. reflexivity. Qed.

Ltac inv_binds :=
  repeat match goal with
  | H : bind _ _ _ = Ok (_, _) |- _ =>
      apply bind_inv in H; destruct H as (? & ? & ? & H)
  | H : ret _ _ = Ok _ |- _ => unfold ret in H; injection H as ?; subst
  | H : fail _ _ = Ok _ |- _ => discriminate H
  | H : (match ?o with Some _ => _ | None => _ end) _ = Ok _ |- _ => destruct o
  end.

Ltac step :=
  match goal with
  | |- bind _ _ _ = _ => erewrite bind_step by (eauto using unwrap_or_panic_ok)
  end.

Ltac run_with_hyps :=
  repeat match goal with p : (_ * _)%type |- _ => destruct p end;
  cbv beta iota zeta in *; inv_binds;
  repeat (first [ progress (unfold bind, unwrap_or_panic, ret, skip, read_length)
                 | match goal with H : ?x = Ok _ |- context [?x] => rewrite H end ];
          cbv beta iota zeta);
  try reflexivity.

(** ** The blob reader and the blob skipper *)

Lemma read_blob_then_skip_blob lzf inp v r :
  read_blob lzf inp = Ok (v, r) -> skip_blob inp = Ok (tt, r).
Proof.
  unfold read_blob, skip_blob. intros H. inv_binds.
  destruct x as [len enc]. step. cbv beta iota.
  destruct enc.
  - destruct len as [|[[p|p|]|[p|p|]|]|p];
      unfold read_i8, read_i16_le, read_i32_le, read_le, read_length in *;
      inv_binds; run_with_hyps.
  - unfold read_length in *; inv_binds; run_with_hyps.
Qed.

(** C3: whenever both succeed on the same input, [read_blob] and
    [skip_blob] leave the input at the same place, so they consume the same
    number of bytes. *)
Theorem read_blob_skip_blob_same_offset lzf inp v r r' :
  read_blob lzf inp = Ok (v, r) -> skip_blob inp = Ok (tt, r') -> r' = r.
Proof.
  intros Hr Hs. apply read_blob_then_skip_blob in Hr. congruence.
Qed.

Lemma read_blob_skip_blob_same_offset_witness :
  read_blob lzf_none (bl [193; 57; 48; 7]) = Ok (bl [49; 50; 51; 52; 53], bl [7])
  /\ skip_blob (bl [193; 57; 48; 7]) = Ok (tt, bl [7])
  /\ bl [7] = bl [7].
Proof.
  split; [reflexivity|]. split; [reflexivity|].
  exact (read_blob_skip_blob_same_offset lzf_none (bl [193; 57; 48; 7])
           (bl [49; 50; 51; 52; 53]) (bl [7]) (bl [7]) eq_refl eq_refl).
Defined.

(** ** The 24-bit ziplist integer *)

Lemma u8_range b : 0 <= u8 b < 256.
Proof. unfold u8. pose proof (Byte.to_N_bounded b). lia. Qed.

Lemma lxor_shiftl_low c k r :
  0 <= k -> 0 <= r < 2 ^ k -> Z.lxor (Z.shiftl c k) r = Z.shiftl c k + r.
Proof.
  intros Hk Hr. symmetry. apply Z.add_nocarry_lxor.
  apply Z.bits_inj'. intros n Hn. rewrite Z.land_spec, Z.bits_0.
  destruct (Z.lt_ge_cases n k).
  - rewrite Z.shiftl_spec_low by lia. reflexivity.
  - rewrite <- (Z.mod_small r (2 ^ k)) by lia.
    rewrite Z.mod_pow2_bits_high by lia. apply andb_false_r.
Qed.

Lemma shl_i32_small x n :
  0 <= n -> 0 <= x -> x * 2 ^ n < 2 ^ 31 -> shl_i32 x n = Z.shiftl x n.
Proof.
  intros Hn Hx Hb. unfold shl_i32, wrap_i32, to_signed.
  rewrite Z.shiftl_mul_pow2 by lia.
  rewrite Z.mod_small by (split; [nia | lia]).
  replace (32 - 1) with 31 by lia.
  destruct (Z.ltb_spec (x * 2 ^ n) (2 ^ 31)); lia.
Qed.

Lemma shl_i32_byte_24 b :
  shl_i32 (u8 b) 24 = Z.shiftl (if u8 b <? 128 then u8 b else u8 b - 256) 24.
Proof.
  pose proof (u8_range b) as Hb.
  unfold shl_i32, wrap_i32, to_signed.
  rewrite !Z.shiftl_mul_pow2 by lia.
  rewrite Z.mod_small by lia.
  replace (32 - 1) with 31 by lia.
  destruct (Z.ltb_spec (u8 b) 128); destruct (Z.ltb_spec (u8 b * 2 ^ 24) (2 ^ 31)); lia.
Qed.

Lemma ziplist_int24_spec b0 b1 b2 :
  ziplist_int24 b0 b1 b2 = sign_extend_24_le b0 b1 b2.
Proof.
  pose proof (u8_range b0). pose proof (u8_range b1). pose proof (u8_range b2).
  unfold ziplist_int24, sign_extend_24_le.
  rewrite shl_i32_byte_24.
  rewrite (shl_i32_small (u8 b1)) by lia.
  rewrite (shl_i32_small (u8 b0)) by lia.
  rewrite !Z.lxor_assoc.
  rewrite (lxor_shiftl_low (u8 b0) 8 48) by lia.
  rewrite (lxor_shiftl_low (u8 b1) 16) by (try rewrite Z.shiftl_mul_pow2; lia).
  rewrite lxor_shiftl_low by (try rewrite !Z.shiftl_mul_pow2; lia).
  rewrite !Z.shiftl_mul_pow2 by lia.
  rewrite Z.shiftr_div_pow2 by lia.
  set (c := if u8 b2 <? 128 then u8 b2 else u8 b2 - 256).
  replace (c * 2 ^ 24 + (u8 b1 * 2 ^ 16 + (u8 b0 * 2 ^ 8 + 48)))
    with ((c * 2 ^ 16 + u8 b1 * 2 ^ 8 + u8 b0) * 2 ^ 8 + 48) by lia.
  rewrite Z.div_add_l by lia.
  change (48 / 2 ^ 8) with 0.
  subst c. destruct (Z.ltb_spec (u8 b2) 128);
    destruct (Z.ltb_spec (u8 b0 + 256 * u8 b1 + 65536 * u8 b2) (2 ^ 23)); lia.
Qed.

(** C7: the 24-bit integer path of [read_ziplist_entry] (flag 0xF0) yields
    the three bytes read as a little-endian number sign-extended from bit
    23. *)
Theorem read_ziplist_entry_int24 b0 b1 b2 rest :
  read_ziplist_entry ("000"%byte :: "240"%byte :: b0 :: b1 :: b2 :: rest)
  = Ok (ZNumber (sign_extend_24_le b0 b1 b2), rest).
Proof.
  unfold read_ziplist_entry. cbn -[ziplist_int24].
  rewrite ziplist_int24_spec. reflexivity.
Qed.

(** ** Ziplist entries never panic *)

Lemma np_bind {S A B} (m : ST S A) (k : A -> ST S B) :
  no_panic m -> (forall a, no_panic (k a)) -> no_panic (bind m k).
Proof.
  intros Hm Hk s. specialize (Hm s). unfold bind.
  destruct (m s) as [[a s']|e]; [apply Hk | exact Hm].
Qed.

Lemma np_ret {S A} (a : A) : no_panic (S := S) (ret a).
Proof. intros s. reflexivity. Qed.

Lemma np_fail_other {S A} msg : no_panic (S := S) (A := A) (fail (Other msg)).
Proof. intros s. reflexivity. Qed.

Lemma np_read_exact n : no_panic (read_exact n).
Proof. intros i. unfold read_exact. destruct (_ && _); reflexivity. Qed.

Lemma np_read_partial n : no_panic (read_partial n).
Proof. intros i. reflexivity. Qed.

Lemma np_read_u8 : no_panic read_u8.
Proof. intros [|b i]; reflexivity. Qed.

Create HintDb np.
#[local] Hint Resolve np_bind np_ret np_fail_other np_read_exact np_read_partial
  np_read_u8 : np.

Lemma np_read_le n : no_panic (read_le n).
Proof. unfold read_le. auto with np. Qed.

Lemma np_read_be n : no_panic (read_be n).
Proof. unfold read_be. auto with np. Qed.

#[local] Hint Resolve np_read_le np_read_be : np.
#[local] Hint Unfold read_i8 read_i16_le read_i32_le read_i64_le read_u32_be
  read_ziplist_value : np.

Lemma np_bind_u8 {B} (k : Z -> RM B) :
  (forall b, no_panic (k (u8 b))) -> no_panic (bind read_u8 k).
Proof.
  intros Hk [|b i]; [reflexivity|]. unfold bind. cbn [read_u8]. apply Hk.
Qed.

(** C9: [read_ziplist_entry] never panics on any input: when the top two
    bits of the flag are 11 its high nibble is 0xC, 0xD, 0xE or 0xF, so the
    "Flag not handled" branch is unreachable (and no other branch panics). *)
Theorem read_ziplist_entry_no_flag_panic inp :
  is_panic (read_ziplist_entry inp) = false.
Proof.
  revert inp. unfold read_ziplist_entry.
  apply np_bind; [auto with np|]. intros byte.
  apply np_bind.
  { destruct (byte =? 254); [|auto with np].
    apply np_bind; [auto with np|]. intros bytes.
    destruct (Nat.eqb _ _); auto with np. }
  intros _. apply np_bind_u8. intros flag.
  destruct flag; cbv [u8 Byte.to_N Z.of_N];
    repeat match goal with
      | |- context [Z.land (Zpos ?c) ?m] =>
          let v := eval vm_compute in (Z.land (Zpos c) m) in
          change (Z.land (Zpos c) m) with v
      | |- context [Z.land Z0 ?m] => change (Z.land Z0 m) with Z0
      | |- context [Z.shiftr (Zpos ?c) ?k] =>
          let v := eval vm_compute in (Z.shiftr (Zpos c) k) in
          change (Z.shiftr (Zpos c) k) with v
      | |- context [Z.shiftr Z0 ?k] => change (Z.shiftr Z0 k) with Z0
      end; cbv beta iota zeta.
  all: unfold read_i8, read_i16_le, read_i32_le, read_i64_le, read_u32_be,
         read_ziplist_value;
       repeat (apply np_bind; [auto with np | intro]);
       try match goal with
           | x : list byte |- no_panic (match ?x with _ => _ end) =>
               destruct x as [|? [|? [|? [|]]]]
           end;
       auto with np.
Qed.

(** ** Concrete runs of the dispatcher *)

(** C1 (code bug): on a ZSET_ZIPLIST record whose ziplist declares zllen = 2
    entries (one member and its score), [read_sortedset_ziplist] passes 2 to
    [start_sorted_set] and then emits a single [sorted_set_element]: the
    count is taken before the halving that [read_hash_ziplist] does first. *)
Theorem read_sortedset_ziplist_start_count lzf pf sc :
  pf (bl [49]) = Some sc ->
  read_type lzf pf key_k 12 (start_state zset_ziplist_payload)
  = Ok (tt, mkPState []
              [StartSortedSet key_k 2 None (Ziplist 16);
               SortedSetElement key_k sc (bl [97]);
               EndSortedSet key_k] None).
Proof.
  intros H. vm_compute in H. vm_compute. rewrite H. reflexivity.
Qed.

Lemma read_sortedset_ziplist_start_count_witness :
  parse_f64_zero (bl [49]) = Some 0 /\
  read_type lzf_none parse_f64_zero key_k 12 (start_state zset_ziplist_payload)
  = Ok (tt, mkPState []
              [StartSortedSet key_k 2 None (Ziplist 16);
               SortedSetElement key_k 0 (bl [97]);
               EndSortedSet key_k] None).
Proof.
  split; [reflexivity|].
  apply (read_sortedset_ziplist_start_count lzf_none parse_f64_zero 0). reflexivity.
Defined.

(** C4 (code bug): a LIST_QUICKLIST record with one inner ziplist of one
    entry gives [start_set(key, 0, ..)], one [list_element] and [end_set]:
    the outer events are the set events, not [start_list]/[end_list]. *)
Theorem read_quicklist_events lzf pf :
  read_type lzf pf key_k 14 (start_state quicklist_payload)
  = Ok (tt, mkPState []
              [StartSet key_k 0 None Quicklist;
               ListElement key_k (bl [49]);
               EndSet key_k] None).
Proof. vm_compute. reflexivity. Qed.

(** C6 (code bug): a zipmap with zmlen = 254 and 255 pairs before its
    terminator (the terminator-driven reading finds 255 pairs) is refused
    by [read_hash_zipmap]: the test [zmlen <= 254] makes 254 a literal
    count, so after 254 pairs the next byte must be 0xFF. *)
Theorem read_hash_zipmap_254_is_a_count lzf pf :
  zipmap_pairs_to_terminator 1000 (tl zipmap_255_pairs) = Some 255%nat /\
  read_type lzf pf key_k 9 (start_state zipmap_payload)
  = Err (Other "Invalid end byte of zipmap").
Proof. split; vm_compute; reflexivity. Qed.

(** ** Encoded blobs *)

Lemma read_length_with_encoding_small b rest :
  u8 b < 64 -> read_length_with_encoding (b :: rest) = Ok ((u8 b, false), rest).
Proof. intros H. destruct b; cbv [u8 Byte.to_N Z.of_N] in *; try lia; reflexivity. Qed.

Lemma read_exact_app data rest :
  read_exact (Z.of_nat (List.length data)) (data ++ rest) = Ok (data, rest).
Proof.
  unfold read_exact. rewrite length_app.
  replace ((Z.of_nat (List.length data) <=? Z.of_nat (List.length data + List.length rest))
           && (0 <=? Z.of_nat (List.length data))) with true
    by (symmetry; apply andb_true_intro; split; apply Z.leb_le; lia).
  rewrite Nat2Z.id, firstn_app, skipn_app, firstn_all, Nat.sub_diag.
  rewrite skipn_all. cbn [firstn skipn]. rewrite app_nil_r. reflexivity.
Qed.

Lemma read_blob_unknown_code lzf b rest :
  196 <= u8 b -> read_blob lzf (b :: rest) = Err (Panic "Unknown encoding").
Proof. intros H. destruct b; cbv [u8 Byte.to_N Z.of_N] in H; try lia; reflexivity. Qed.

Lemma read_blob_lzf_any lzf i1 i2 c r data rest :
  read_length i1 = Ok (c, i2) -> read_length i2 = Ok (r, data ++ rest) ->
  Z.of_nat (List.length data) = c ->
  read_blob lzf (bz 195 :: i1)
  = match lzf data r with
    | Some out => Ok (out, rest)
    | None => Err (Panic "called `Result::unwrap()` on an `Err` value")
    end.
Proof.
  intros H1 H2 Hl. unfold read_blob.
  rewrite (bind_step _ _ _ (3, true) i1) by reflexivity.
  cbv beta iota.
  rewrite (bind_step _ _ _ c i2) by exact H1.
  rewrite (bind_step _ _ _ r (data ++ rest)) by exact H2.
  rewrite (bind_step _ _ _ data rest) by (rewrite <- Hl; apply read_exact_app).
  destruct (lzf data r); reflexivity.
Qed.

(** ** The frame driver *)

Lemma run_parse_header lzf pf mn mx filter rest :
  mn <= 9 <= mx ->
  run_parse lzf pf mn mx filter (rdb_header ++ rest)
  = parse_loop lzf pf filter (S (List.length rest)) 0 (mkPState rest [StartRdb] None).
Proof.
  intros Hv.
  assert (E1 : (mn <=? 9) = true) by (apply Z.leb_le; lia).
  assert (E2 : (9 <=? mx) = true) by (apply Z.leb_le; lia).
  unfold run_parse, parse, verify_magic, verify_version, bind, liftI, emit,
    input_length, ret, start_state.
  cbn -[parse_loop Z.leb]. change (9 mod 256) with 9. rewrite E1, E2. reflexivity.
Qed.

(** C10: [parse] emits [end_database(last_database)] at EOF whether or not a
    [start_database] was emitted: an RDB made of magic, version and EOF
    gives [start_rdb; end_database(0); end_rdb], and with a filter refusing
    every database a SELECTDB 3 record gives [end_database(3)] with no
    [start_database]. *)
Theorem parse_eof_only_end_database lzf pf mn mx filter :
  mn <= 9 <= mx ->
  run_parse lzf pf mn mx filter (rdb_header ++ bl [255])
  = Ok (tt, mkPState [] [StartRdb; EndDatabase 0; EndRdb] None)
  /\ run_parse lzf pf mn mx deny_all (rdb_header ++ bl [254; 3; 255])
  = Ok (tt, mkPState [] [StartRdb; EndDatabase 3; EndRdb] None).
Proof.
  intros Hv. split; rewrite run_parse_header by exact Hv; reflexivity.
Qed.

Lemma parse_eof_only_end_database_witness :
  1 <= 9 <= 9 /\
  run_parse lzf_none parse_f64_zero 1 9 allow_all (rdb_header ++ bl [255])
  = Ok (tt, mkPState [] [StartRdb; EndDatabase 0; EndRdb] None)
  /\ run_parse lzf_none parse_f64_zero 1 9 deny_all (rdb_header ++ bl [254; 3; 255])
  = Ok (tt, mkPState [] [StartRdb; EndDatabase 3; EndRdb] None).
Proof.
  split; [lia|].
  apply (parse_eof_only_end_database lzf_none parse_f64_zero 1 9 allow_all). lia.
Defined.

(** C2 (code bug): on an RDB with one ZSET record whose score is written with
    the length byte 254 (+inf), [parse] with the allow-all filter succeeds
    while [parse] with the deny-all filter panics: [skip_object] skips the
    score as a blob, and 254 is read as the unknown blob encoding 62. *)
Theorem parse_skip_path_diverges_on_zset_inf lzf pf mn mx :
  mn <= 9 <= mx ->
  run_parse lzf pf mn mx allow_all zset_inf_rdb
  = Ok (tt, mkPState []
              [StartRdb; StartSortedSet key_k 1 None Hashtable;
               SortedSetElement key_k F64_INFINITY (bl [97]); EndSortedSet key_k;
               EndDatabase 0; EndRdb] None)
  /\ run_parse lzf pf mn mx deny_all zset_inf_rdb = Err (Panic "Unknown encoding").
Proof.
  intros Hv. unfold zset_inf_rdb.
  split; rewrite run_parse_header by exact Hv; vm_compute; reflexivity.
Qed.

Lemma parse_skip_path_diverges_on_zset_inf_witness :
  1 <= 9 <= 9 /\
  run_parse lzf_none parse_f64_zero 1 9 allow_all zset_inf_rdb
  = Ok (tt, mkPState []
              [StartRdb; StartSortedSet key_k 1 None Hashtable;
               SortedSetElement key_k F64_INFINITY (bl [97]); EndSortedSet key_k;
               EndDatabase 0; EndRdb] None)
  /\ run_parse lzf_none parse_f64_zero 1 9 deny_all zset_inf_rdb
     = Err (Panic "Unknown encoding").
Proof.
  split; [lia|].
  apply (parse_skip_path_diverges_on_zset_inf lzf_none parse_f64_zero 1 9). lia.
Defined.

(** C5 (corrected): an encoded length whose code is not INT8, INT16, INT32
    or LZF (first byte 0xC4 to 0xFF) makes [read_blob] panic; with the LZF
    code, for every compressed length c and declared length r that
    [read_length] reads (in any of its encodings), [read_blob] reads c bytes
    and returns the decompressor's output whatever its size (no comparison
    with r), and panics when the decompressor fails. *)
Theorem read_blob_encoded_outcomes lzf :
  (forall b rest, 196 <= u8 b ->
     read_blob lzf (b :: rest) = Err (Panic "Unknown encoding"))
  /\ (forall i1 i2 c r data rest out,
        read_length i1 = Ok (c, i2) -> read_length i2 = Ok (r, data ++ rest) ->
        Z.of_nat (List.length data) = c -> lzf data r = Some out ->
        read_blob lzf (bz 195 :: i1) = Ok (out, rest))
  /\ (forall i1 i2 c r data rest,
        read_length i1 = Ok (c, i2) -> read_length i2 = Ok (r, data ++ rest) ->
        Z.of_nat (List.length data) = c -> lzf data r = None ->
        read_blob lzf (bz 195 :: i1)
        = Err (Panic "called `Result::unwrap()` on an `Err` value")).
Proof.
  split; [|split].
  - apply read_blob_unknown_code.
  - intros i1 i2 c r data rest out H1 H2 Hl Hd.
    rewrite (read_blob_lzf_any lzf i1 i2 c r data rest H1 H2 Hl), Hd. reflexivity.
  - intros i1 i2 c r data rest H1 H2 Hl Hd.
    rewrite (read_blob_lzf_any lzf i1 i2 c r data rest H1 H2 Hl), Hd. reflexivity.
Qed.

Lemma read_blob_encoded_outcomes_witness :
  read_blob lzf_one_byte (bl [196]) = Err (Panic "Unknown encoding")
  /\ read_blob lzf_one_byte (bz 195 :: bl [1; 5; 0]) = Ok (bl [1], [])
  /\ read_blob lzf_one_byte (bz 195 :: bl [64; 64; 64; 200] ++ repeat (bz 0) 64)
     = Ok (bl [1], [])
  /\ read_blob lzf_none (bz 195 :: bl [1; 5; 0])
     = Err (Panic "called `Result::unwrap()` on an `Err` value").
Proof.
  destruct (read_blob_encoded_outcomes lzf_one_byte) as [H1 [H2 _]].
  destruct (read_blob_encoded_outcomes lzf_none) as [_ [_ H3]].
  split; [|split; [|split]].
  - apply H1. vm_compute. discriminate.
  - apply (H2 (bl [1; 5; 0]) (bl [5; 0]) 1 5 (bl [0]) [] (bl [1]));
      reflexivity.
  - apply (H2 (bl [64; 64; 64; 200] ++ repeat (bz 0) 64)
              (bl [64; 200] ++ repeat (bz 0) 64) 64 200
              (repeat (bz 0) 64) [] (bl [1])); vm_compute; reflexivity.
  - apply (H3 (bl [1; 5; 0]) (bl [5; 0]) 1 5 (bl [0]) []); reflexivity.
Defined.

(** C5 counterexample: the code 4 makes [read_blob] panic instead of
    returning a Corrupt error, and an LZF blob declaring r = 5 is accepted
    with the one byte the decompressor produced. *)
Lemma read_blob_unknown_code_and_short_lzf :
  read_blob lzf_none (bl [196]) = Err (Panic "Unknown encoding")
  /\ read_blob lzf_one_byte (bl [195; 1; 5; 0]) = Ok (bl [1], []).
Proof. split; reflexivity. Qed.

(** ** [last_expiretime] across one iteration of the loop *)

Lemma liftI_keeps {A} (m : RM A) s a s' :
  liftI m s = Ok (a, s') -> last_expiretime s' = last_expiretime s.
Proof.
  unfold liftI. destruct (m (input s)) as [[? ?]|?]; intros H; [|discriminate].
  injection H as _ <-. reflexivity.
Qed.

Lemma emit_keeps e s a s' :
  emit e s = Ok (a, s') -> last_expiretime s' = last_expiretime s.
Proof. unfold emit. intros H. injection H as _ <-. reflexivity. Qed.

Lemma ret_keeps {A} (a : A) s a' s' :
  ret a s = Ok (a', s') -> last_expiretime s' = last_expiretime s.
Proof. unfold ret. intros H. injection H as _ <-. reflexivity. Qed.

Ltac keeps :=
  repeat match goal with
  | H : (if ?c then _ else _) _ = Ok _ |- _ => destruct c
  | H : bind _ _ _ = Ok (_, _) |- _ =>
      apply bind_inv in H; destruct H as (? & ? & ? & H)
  | H : liftI _ _ = Ok (_, _) |- _ => apply liftI_keeps in H
  | H : emit _ _ = Ok (_, _) |- _ => apply emit_keeps in H
  | H : ret _ _ = Ok (_, _) |- _ => apply ret_keeps in H
  end; cbn [last_expiretime] in *; congruence.

Ltac crunch :=
  repeat match goal with
  | H : bind _ _ _ = Ok (_, _) |- _ =>
      apply bind_inv in H; destruct H as (? & ? & ? & H)
  | H : ret _ _ = Ok _ |- _ => unfold ret in H; injection H as ? ?; subst
  | H : set_expiretime _ _ = Ok _ |- _ =>
      unfold set_expiretime in H; injection H as ? ?; subst
  end.

(** C8: one iteration of the loop of [parse] that succeeds sets
    [last_expiretime] to some value on EXPIRETIME_MS and EXPIRETIME, leaves
    it unchanged on AUX, RESIZEDB, SELECTDB and EOF, and resets it to
    [None] after every value record, read or skipped. *)
Theorem parse_step_last_expiretime lzf pf filter db s next s' :
  parse_step lzf pf filter db s = Ok (next, s') ->
  exists op rest, input s = op :: rest /\
    ((u8 op = 252 \/ u8 op = 253) /\ (exists t, last_expiretime s' = Some t)
     \/ (u8 op = 250 \/ u8 op = 251 \/ u8 op = 254 \/ u8 op = 255)
        /\ last_expiretime s' = last_expiretime s
     \/ u8 op < 250 /\ last_expiretime s' = None).
Proof.
  intros H. unfold parse_step in H.
  apply bind_inv in H. destruct H as (op & s1 & H1 & H).
  unfold liftI in H1. destruct (input s) as [|b rest] eqn:Ein; [discriminate|].
  cbn [read_u8] in H1. injection H1 as <- <-.
  exists b, rest. split; [reflexivity|].
  destruct b; cbv [u8 Byte.to_N Z.of_N] in H |- *; cbv beta iota in H.
  all: crunch.
  all: first
    [ right; right; split; [lia | reflexivity]
    | left; split; [lia | eexists; reflexivity]
    | right; left; split; [lia|]; keeps ].
Qed.

Lemma parse_step_last_expiretime_witness :
  parse_step lzf_none parse_f64_zero allow_all 0
    (mkPState (bl [252; 1; 0; 0; 0; 0; 0; 0; 0]) [] None)
  = Ok (Some 0, mkPState [] [] (Some 1))
  /\ exists op rest, bl [252; 1; 0; 0; 0; 0; 0; 0; 0] = op :: rest /\
    ((u8 op = 252 \/ u8 op = 253) /\ (exists t, Some 1 = Some t)
     \/ (u8 op = 250 \/ u8 op = 251 \/ u8 op = 254 \/ u8 op = 255)
        /\ Some 1 = @None Z
     \/ u8 op < 250 /\ Some 1 = None).
Proof.
  split; [reflexivity|].
  exact (parse_step_last_expiretime lzf_none parse_f64_zero allow_all 0
           (mkPState (bl [252; 1; 0; 0; 0; 0; 0; 0; 0]) [] None)
           (Some 0) (mkPState [] [] (Some 1)) eq_refl).
Defined.

(** ** Properties of the readers beyond the claims *)

Lemma u8_bz z : 0 <= z < 256 -> u8 (bz z) = z.
Proof.
  intros Hz. unfold bz, u8.
  destruct (Byte.of_N (Z.to_N z)) as [b|] eqn:E.
  - apply Byte.to_of_N in E. rewrite E. lia.
  - pose proof (Byte.to_of_N_option_map (Z.to_N z)) as H. rewrite E in H.
    cbn in H. destruct (N.leb_spec (Z.to_N z) 255); [discriminate|lia].
Qed.

Lemma lor_shiftl_low a c k :
  0 <= k -> 0 <= c < 2 ^ k -> Z.lor (Z.shiftl a k) c = Z.shiftl a k + c.
Proof.
  intros Hk Hc. rewrite <- lxor_shiftl_low by lia.
  symmetry. apply Z.lxor_lor.
  apply Z.bits_inj'. intros n Hn. rewrite Z.land_spec, Z.bits_0.
  destruct (Z.lt_ge_cases n k).
  - rewrite Z.shiftl_spec_low by lia. reflexivity.
  - rewrite <- (Z.mod_small c (2 ^ k)) by lia.
    rewrite Z.mod_pow2_bits_high by lia. apply andb_false_r.
Qed.

Lemma top_bits x :
  0 <= x -> Z.shiftr (Z.land x 192) 6 = (x / 64) mod 4 /\ Z.land x 63 = x mod 64.
Proof.
  intros Hx. split.
  - rewrite Z.shiftr_land. change (Z.shiftr 192 6) with (Z.ones 2).
    rewrite Z.land_ones by lia. rewrite Z.shiftr_div_pow2 by lia. reflexivity.
  - change 63 with (Z.ones 6). rewrite Z.land_ones by lia. reflexivity.
Qed.

Lemma le_value_range bs : 0 <= le_value bs < 2 ^ (8 * Z.of_nat (List.length bs)).
Proof.
  induction bs as [|b bs IH]; cbn [le_value List.length]; [lia|].
  pose proof (u8_range b). rewrite Nat2Z.inj_succ.
  replace (8 * Z.succ (Z.of_nat (List.length bs)))
    with (8 + 8 * Z.of_nat (List.length bs)) by lia.
  rewrite Z.pow_add_r by lia. change (2 ^ 8) with 256. nia.
Qed.

Lemma le_bytes_length k v : List.length (le_bytes k v) = k.
Proof. revert v. induction k; intros v; cbn; [reflexivity|]. rewrite IHk. reflexivity. Qed.

Lemma le_value_le_bytes k v :
  le_value (le_bytes k v) = v mod 2 ^ (8 * Z.of_nat k).
Proof.
  revert v. induction k as [|k IH]; intros v; cbn [le_bytes le_value].
  - change (8 * Z.of_nat 0) with 0. rewrite Z.mod_1_r. reflexivity.
  - rewrite IH, u8_bz by (apply Z.mod_pos_bound; lia).
    rewrite Nat2Z.inj_succ.
    replace (8 * Z.succ (Z.of_nat k)) with (8 + 8 * Z.of_nat k) by lia.
    rewrite Z.pow_add_r by lia. change (2 ^ 8) with 256.
    rewrite Z.rem_mul_r by lia. reflexivity.
Qed.

Lemma read_u8_cons b rest : read_u8 (b :: rest) = Ok (u8 b, rest).
Proof. reflexivity. Qed.

Lemma read_exact_app' n data rest :
  n = Z.of_nat (List.length data) -> read_exact n (data ++ rest) = Ok (data, rest).
Proof. intros ->. apply read_exact_app. Qed.

Lemma read_le_bytes k v rest :
  read_le (Z.of_nat k) (le_bytes k v ++ rest) = Ok (v mod 2 ^ (8 * Z.of_nat k), rest).
Proof.
  unfold read_le. rewrite (bind_step _ _ _ (le_bytes k v) rest).
  - rewrite le_value_le_bytes. reflexivity.
  - apply read_exact_app'. rewrite le_bytes_length. reflexivity.
Qed.

(** The first byte selects the form of the length. *)
Lemma read_length_with_encoding_cons b rest :
  read_length_with_encoding (b :: rest)
  = match u8 b / 64 with
    | 0 => Ok ((u8 b mod 64, false), rest)
    | 1 => match rest with
           | c :: rest' => Ok ((u8 b mod 64 * 256 + u8 c, false), rest')
           | [] => Err ShortRead
           end
    | 2 => match read_u32_be rest with
           | Ok (v, rest') => Ok ((v, false), rest')
           | Err e => Err e
           end
    | _ => Ok ((u8 b mod 64, true), rest)
    end.
Proof.
  pose proof (u8_range b) as Hb.
  destruct (top_bits (u8 b)) as [E1 E2]; [lia|].
  unfold read_length_with_encoding. rewrite (bind_step _ _ _ (u8 b) rest) by reflexivity.
  rewrite E1, E2.
  assert (Hq : 0 <= u8 b / 64 < 4) by (split; [apply Z.div_pos | apply Z.div_lt_upper_bound]; lia).
  rewrite (Z.mod_small (u8 b / 64)) by lia.
  destruct (u8 b / 64) as [|[[]|[]|]|] eqn:Eq; try lia; try reflexivity.
  - destruct rest as [|c rest']; [reflexivity|].
    unfold bind, ret. cbn [read_u8]. pose proof (u8_range c).
    rewrite lor_shiftl_low by lia. rewrite Z.shiftl_mul_pow2 by lia. reflexivity.
Qed.

Lemma read_u32_be_cases r :
  read_u32_be r = Err ShortRead \/
  exists p r', List.length p = 4%nat /\ r = p ++ r' /\ read_u32_be r = Ok (be_value p, r').
Proof.
  unfold read_u32_be, read_be, bind, read_exact.
  destruct ((4 <=? Z.of_nat (List.length r)) && (0 <=? 4)) eqn:E; [right|left; reflexivity].
  exists (firstn 4 r), (skipn 4 r). split; [|split; [symmetry; apply firstn_skipn|reflexivity]].
  apply firstn_length_le. apply andb_true_iff in E. destruct E as [E _].
  apply Z.leb_le in E. lia.
Qed.

Lemma be_value_range p : List.length p = 4%nat -> 0 <= be_value p < 2 ^ 32.
Proof.
  intros Hp. unfold be_value. pose proof (le_value_range (rev p)) as H.
  rewrite length_rev, Hp in H. exact H.
Qed.

Lemma read_length_with_encoding_cases i :
  read_length_with_encoding i = Err ShortRead \/
  exists p r len enc,
    read_length_with_encoding i = Ok ((len, enc), r) /\ i = p ++ r /\
    (List.length p = 1 \/ List.length p = 2 \/ List.length p = 5)%nat /\
    0 <= len < 2 ^ 32 /\ (enc = true -> List.length p = 1%nat /\ len < 64).
Proof.
  destruct i as [|b rest]; [left; reflexivity|].
  rewrite read_length_with_encoding_cons.
  pose proof (u8_range b) as Hb.
  assert (Hq : 0 <= u8 b / 64 < 4) by (split; [apply Z.div_pos | apply Z.div_lt_upper_bound]; lia).
  assert (Hm : 0 <= u8 b mod 64 < 64) by (apply Z.mod_pos_bound; lia).
  destruct (u8 b / 64) as [|[[]|[]|]|] eqn:Eq; try lia.
  - right. exists [b], rest, (u8 b mod 64), false. repeat split; auto; try lia; discriminate.
  - right. exists [b], rest, (u8 b mod 64), true. repeat split; auto; lia.
  - destruct (read_u32_be_cases rest) as [E|(p & r' & Hl & -> & E)]; rewrite E; [left; reflexivity|].
    right. exists (b :: p), r', (be_value p), false. pose proof (be_value_range p Hl).
    repeat split; auto; try lia; try discriminate. right; right. cbn. rewrite Hl. reflexivity.
  - destruct rest as [|c rest']; [left; reflexivity|]. right. pose proof (u8_range c).
    exists [b; c], rest', (u8 b mod 64 * 256 + u8 c), false.
    repeat split; auto; try lia; discriminate.
Qed.

(** X1: [read_length_with_encoding] either stops on a short input or reads a
    prefix of 1, 2 or 5 bytes; the length it returns is below 2^32, and an
    encoded value (flag [true]) comes from a one-byte prefix and is below 64. *)
Theorem read_length_with_encoding_shape i :
  read_length_with_encoding i = Err ShortRead \/
  exists p r len enc,
    read_length_with_encoding i = Ok ((len, enc), r) /\ i = p ++ r /\
    (List.length p = 1 \/ List.length p = 2 \/ List.length p = 5)%nat /\
    0 <= len < 2 ^ 32 /\ (enc = true -> List.length p = 1%nat /\ len < 64).
Proof. exact (read_length_with_encoding_cases i). Qed.


Lemma read_length_with_encoding_encode_length n rest :
  0 <= n < 2 ^ 32 ->
  read_length_with_encoding (encode_length n ++ rest) = Ok ((n, false), rest).
Proof.
  intros Hn. unfold encode_length.
  destruct (Z.ltb_spec n 64); [|destruct (Z.ltb_spec n 16384)]; cbn [app].
  - rewrite read_length_with_encoding_cons, u8_bz by lia.
    rewrite (Z.div_small n 64) by lia. rewrite Z.mod_small by lia. reflexivity.
  - rewrite read_length_with_encoding_cons.
    assert (H1 : 0 <= n / 256 < 64) by (split; [apply Z.div_pos | apply Z.div_lt_upper_bound]; lia).
    rewrite u8_bz by lia.
    replace ((64 + n / 256) / 64) with 1
      by (apply Z.div_unique with (r := n / 256); lia).
    rewrite u8_bz by (apply Z.mod_pos_bound; lia).
    replace ((64 + n / 256) mod 64) with (n / 256)
      by (apply Z.mod_unique with (q := 1); lia).
    rewrite (Z.div_mod n 256) at 3 by lia. f_equal. f_equal. f_equal. lia.
  - rewrite read_length_with_encoding_cons, u8_bz by lia. cbn [Z.div].
    change (Z.div 128 64) with 2. cbv iota.
    unfold read_u32_be, read_be.
    rewrite (bind_step _ _ _ (be_bytes 4 n) rest).
    2:{ apply read_exact_app'. unfold be_bytes. rewrite length_rev, le_bytes_length. reflexivity. }
    unfold ret, be_value, be_bytes. rewrite rev_involutive, le_value_le_bytes.
    rewrite Z.mod_small by (cbn; lia). reflexivity.
Qed.

Lemma read_length_encode_length n rest :
  0 <= n < 2 ^ 32 -> read_length (encode_length n ++ rest) = Ok (n, rest).
Proof.
  intros Hn. unfold read_length.
  rewrite (bind_step _ _ _ (n, false) rest) by (apply read_length_with_encoding_encode_length; exact Hn).
  reflexivity.
Qed.

(** X2: the length reader inverts the shortest RDB length encoding: for
    every [n] below 2^32, reading [encode_length n] returns [n], not encoded,
    and leaves the bytes that follow. *)
Theorem read_length_round_trip n rest :
  0 <= n < 2 ^ 32 ->
  read_length_with_encoding (encode_length n ++ rest) = Ok ((n, false), rest)
  /\ read_length (encode_length n ++ rest) = Ok (n, rest).
Proof.
  intros Hn. split.
  - apply read_length_with_encoding_encode_length; exact Hn.
  - apply read_length_encode_length; exact Hn.
Qed.

Lemma read_blob_encode_blob lzf data rest :
  Z.of_nat (List.length data) < 2 ^ 32 ->
  read_blob lzf (encode_blob data ++ rest) = Ok (data, rest).
Proof.
  intros Hd. unfold read_blob, encode_blob. rewrite <- app_assoc.
  rewrite (bind_step _ _ _ (Z.of_nat (List.length data), false) (data ++ rest))
    by (apply read_length_with_encoding_encode_length; lia).
  apply read_exact_app.
Qed.

(** X3: a blob written as its length followed by its bytes reads back as
    those bytes; a length larger than the bytes available gives a short
    read. *)
Theorem read_blob_plain lzf :
  (forall data rest, Z.of_nat (List.length data) < 2 ^ 32 ->
     read_blob lzf (encode_blob data ++ rest) = Ok (data, rest))
  /\ (forall n data, Z.of_nat (List.length data) < n < 2 ^ 32 ->
     read_blob lzf (encode_length n ++ data) = Err ShortRead).
Proof.
  split; [apply read_blob_encode_blob|].
  intros n data Hn. unfold read_blob.
  rewrite (bind_step _ _ _ (n, false) data)
    by (rewrite <- (app_nil_r data) at 1; rewrite read_length_with_encoding_encode_length by lia;
        rewrite app_nil_r; reflexivity).
  cbv iota. unfold read_exact.
  replace (n <=? Z.of_nat (List.length data)) with false by (symmetry; apply Z.leb_gt; lia).
  reflexivity.
Qed.

Lemma to_signed_mod w v :
  1 <= w -> - 2 ^ (w - 1) <= v < 2 ^ (w - 1) -> to_signed w (v mod 2 ^ w) = v.
Proof.
  intros Hw Hv. unfold to_signed.
  assert (E : 2 ^ w = 2 * 2 ^ (w - 1))
    by (rewrite <- Z.pow_succ_r by lia; f_equal; lia).
  destruct (Z.le_gt_cases 0 v).
  - rewrite Z.mod_small by lia. destruct (Z.ltb_spec v (2 ^ (w - 1))); lia.
  - replace (v mod 2 ^ w) with (v + 2 ^ w)
      by (apply Z.mod_unique with (q := -1); lia).
    destruct (Z.ltb_spec (v + 2 ^ w) (2 ^ (w - 1))); lia.
Qed.

(** X4: the INT8, INT16 and INT32 blob encodings of an integer in range
    read back as the decimal ASCII text of that integer. *)
Theorem read_blob_int_round_trip lzf v rest :
  (-128 <= v < 128 -> read_blob lzf (bz 192 :: le_bytes 1 v ++ rest) = Ok (int_to_vec v, rest))
  /\ (-32768 <= v < 32768 -> read_blob lzf (bz 193 :: le_bytes 2 v ++ rest) = Ok (int_to_vec v, rest))
  /\ (-2147483648 <= v < 2147483648 ->
      read_blob lzf (bz 194 :: le_bytes 4 v ++ rest) = Ok (int_to_vec v, rest)).
Proof.
  split; [|split]; intros Hv; unfold read_blob.
  - rewrite bind_step with (a := (0, true)) (s' := le_bytes 1 v ++ rest)
      by (rewrite read_length_with_encoding_cons, u8_bz by lia; reflexivity).
    cbv iota beta. rewrite bind_step with (a := v) (s' := rest); [reflexivity|].
    unfold read_i8.
    rewrite bind_step with (a := v mod 2 ^ 8) (s' := rest) by apply (read_le_bytes 1 v rest).
    unfold ret. rewrite to_signed_mod by lia. reflexivity.
  - rewrite bind_step with (a := (1, true)) (s' := le_bytes 2 v ++ rest)
      by (rewrite read_length_with_encoding_cons, u8_bz by lia; reflexivity).
    cbv iota beta. rewrite bind_step with (a := v) (s' := rest); [reflexivity|].
    unfold read_i16_le.
    rewrite bind_step with (a := v mod 2 ^ 16) (s' := rest) by apply (read_le_bytes 2 v rest).
    unfold ret. rewrite to_signed_mod by lia. reflexivity.
  - rewrite bind_step with (a := (2, true)) (s' := le_bytes 4 v ++ rest)
      by (rewrite read_length_with_encoding_cons, u8_bz by lia; reflexivity).
    cbv iota beta. rewrite bind_step with (a := v) (s' := rest); [reflexivity|].
    unfold read_i32_le.
    rewrite bind_step with (a := v mod 2 ^ 32) (s' := rest) by apply (read_le_bytes 4 v rest).
    unfold ret. rewrite to_signed_mod by lia. reflexivity.
Qed.

(** X5: [verify_magic] succeeds exactly on inputs that start with [REDIS],
    and consumes those five bytes; a shorter input and a wrong magic give
    their two distinct errors. *)
Theorem verify_magic_spec :
  (forall i r, verify_magic i = Ok (tt, r) <-> i = RDB_MAGIC ++ r)
  /\ (forall i, (List.length i < 5)%nat ->
        verify_magic i = Err (Other "Could not read enough bytes for the magic"))
  /\ (forall i, (5 <= List.length i)%nat -> firstn 5 i <> RDB_MAGIC ->
        verify_magic i = Err (Other "Invalid magic string")).
Proof.
  unfold verify_magic, bind, read_partial. split; [|split].
  - intros i r. split.
    + destruct (Nat.eqb (List.length (firstn 5 i)) 5); cbn [negb];
        [|unfold fail; discriminate].
      destruct (list_eq_dec Byte.byte_eq_dec (firstn 5 i) RDB_MAGIC) as [E|E];
        [|unfold fail; discriminate].
      unfold ret. intros H. injection H as <-. rewrite <- E. symmetry. apply firstn_skipn.
    + intros ->. cbn. reflexivity.
  - intros i Hi. rewrite firstn_all2 by lia.
    replace (Nat.eqb (List.length i) 5) with false by (symmetry; apply Nat.eqb_neq; lia).
    reflexivity.
  - intros i Hi Hne. rewrite length_firstn.
    replace (Nat.min 5 (List.length i)) with 5%nat by lia. cbn [Nat.eqb negb].
    destruct (list_eq_dec Byte.byte_eq_dec (firstn 5 i) RDB_MAGIC); [contradiction|reflexivity].
Qed.

(** X6: on four ASCII digits, [verify_version] computes the decimal number
    they spell and accepts it exactly when it lies in the supported range. *)
Theorem verify_version_digits mn mx d0 d1 d2 d3 rest :
  48 <= u8 d0 <= 57 -> 48 <= u8 d1 <= 57 -> 48 <= u8 d2 <= 57 -> 48 <= u8 d3 <= 57 ->
  verify_version mn mx (d0 :: d1 :: d2 :: d3 :: rest)
  = if (mn <=? version_of d0 d1 d2 d3) && (version_of d0 d1 d2 d3 <=? mx)
    then Ok (tt, rest)
    else Err (Other "Version RDB files are not supported").
Proof.
  intros H0 H1 H2 H3. unfold verify_version, bind, read_partial. cbn [firstn skipn].
  rewrite !(Z.mod_small (u8 _ - 48) 256) by lia.
  unfold version_of. destruct (_ && _); reflexivity.
Qed.

(** X7: [verify_version] on fewer than four bytes fails with the
    not-enough-bytes error. *)
Theorem verify_version_short mn mx i :
  (List.length i < 4)%nat ->
  verify_version mn mx i = Err (Other "Could not read enough bytes for the version").
Proof.
  intros Hi. destruct i as [|a [|b [|c [|d i]]]]; cbn in Hi; try lia; reflexivity.
Qed.

Lemma liftI_run {A} (m : RM A) i ev exp a r :
  m i = Ok (a, r) -> liftI m (mkPState i ev exp) = Ok (a, mkPState r ev exp).
Proof. intros H. unfold liftI. cbn [input events last_expiretime]. rewrite H. reflexivity. Qed.

Lemma concat_map_single {X Y} (g : X -> Y) xs :
  List.concat (map (fun x => [g x]) xs) = map g xs.
Proof. induction xs; cbn; [reflexivity|]. rewrite IHxs. reflexivity. Qed.

Lemma repeatM_list {X} (P : X -> Prop) (enc : X -> list byte) (f : X -> list Event)
  (body : M unit) :
  (forall x r ev exp, P x ->
     body (mkPState (enc x ++ r) ev exp) = Ok (tt, mkPState r (ev ++ f x) exp)) ->
  forall xs r ev exp, Forall P xs ->
  repeatM (List.length xs) body (mkPState (List.concat (map enc xs) ++ r) ev exp)
  = Ok (tt, mkPState r (ev ++ List.concat (map f xs)) exp).
Proof.
  intros Hb xs. induction xs as [|x xs IH]; intros r ev exp Hf; cbn [List.length repeatM].
  - cbn. rewrite app_nil_r. reflexivity.
  - inversion Hf as [|? ? Hx Hxs]; subst. cbn [map List.concat]. rewrite <- app_assoc.
    rewrite (bind_step _ _ _ tt (mkPState (List.concat (map enc xs) ++ r) (ev ++ f x) exp))
      by (apply Hb; exact Hx).
    rewrite IH by exact Hxs. rewrite app_assoc. reflexivity.
Qed.

Lemma iter_reader_list {X} (P : X -> Prop) (enc : X -> list byte) (f : X -> list Event)
  (body : list byte -> M (list byte)) :
  (forall x r i ev exp, P x ->
     body (enc x ++ r) (mkPState i ev exp) = Ok (r, mkPState i (ev ++ f x) exp)) ->
  forall xs r i ev exp, Forall P xs ->
  iter_reader (List.length xs) body (List.concat (map enc xs) ++ r) (mkPState i ev exp)
  = Ok (r, mkPState i (ev ++ List.concat (map f xs)) exp).
Proof.
  intros Hb xs. induction xs as [|x xs IH]; intros r i ev exp Hf; cbn [List.length iter_reader].
  - cbn. rewrite app_nil_r. reflexivity.
  - inversion Hf as [|? ? Hx Hxs]; subst. cbn [map List.concat]. rewrite <- app_assoc.
    rewrite (bind_step _ _ _ (List.concat (map enc xs) ++ r) (mkPState i (ev ++ f x) exp))
      by (apply Hb; exact Hx).
    rewrite IH by exact Hxs. rewrite app_assoc. reflexivity.
Qed.

Lemma read_ziplist_entry_short p x r :
  u8 p <> 254 -> Z.of_nat (List.length x) < 64 ->
  read_ziplist_entry (ziplist_entry_str (p, x) ++ r) = Ok (ZString x, r).
Proof.
  intros Hp Hx. unfold read_ziplist_entry, ziplist_entry_str. cbn [fst snd app].
  rewrite bind_step with (a := u8 p) (s' := bz (Z.of_nat (List.length x)) :: x ++ r)
    by reflexivity.
  replace (u8 p =? 254) with false by (symmetry; apply Z.eqb_neq; exact Hp).
  rewrite bind_step with (a := tt) (s' := bz (Z.of_nat (List.length x)) :: x ++ r)
    by reflexivity.
  rewrite bind_step with (a := u8 (bz (Z.of_nat (List.length x)))) (s' := x ++ r)
    by reflexivity.
  rewrite u8_bz by lia.
  destruct (top_bits (Z.of_nat (List.length x))) as [E1 E2]; [lia|].
  rewrite E1, E2. rewrite (Z.div_small _ 64) by lia. rewrite (Z.mod_small _ 64) by lia.
  change (0 mod 4) with 0. cbv iota. unfold read_ziplist_value.
  rewrite bind_step with (a := x) (s' := r) by apply read_exact_app.
  reflexivity.
Qed.

Lemma read_ziplist_entry_string_short p x r :
  u8 p <> 254 -> Z.of_nat (List.length x) < 64 ->
  read_ziplist_entry_string (ziplist_entry_str (p, x) ++ r) = Ok (x, r).
Proof.
  intros Hp Hx. unfold read_ziplist_entry_string.
  rewrite bind_step with (a := ZString x) (s' := r)
    by (apply read_ziplist_entry_short; assumption).
  reflexivity.
Qed.

Lemma read_ziplist_metadata_bytes zlbytes zltail n r :
  List.length zlbytes = 4%nat -> List.length zltail = 4%nat ->
  read_ziplist_metadata (zlbytes ++ zltail ++ le_bytes 2 n ++ r)
  = Ok ((le_value zlbytes, le_value zltail, n mod 2 ^ 16), r).
Proof.
  intros H1 H2. unfold read_ziplist_metadata, read_u32_le, read_u16_le, read_le.
  rewrite bind_step with (a := le_value zlbytes) (s' := zltail ++ le_bytes 2 n ++ r).
  2:{ rewrite bind_step with (a := zlbytes) (s' := zltail ++ le_bytes 2 n ++ r)
        by (apply read_exact_app'; rewrite H1; reflexivity). reflexivity. }
  rewrite bind_step with (a := le_value zltail) (s' := le_bytes 2 n ++ r).
  2:{ rewrite bind_step with (a := zltail) (s' := le_bytes 2 n ++ r)
        by (apply read_exact_app'; rewrite H2; reflexivity). reflexivity. }
  rewrite bind_step with (a := n mod 2 ^ 16) (s' := r)
    by (apply (read_le_bytes 2 n r)).
  reflexivity.
Qed.

Lemma check_end_byte_ok tail msg i ev exp :
  check_end_byte (bz 255 :: tail) msg (mkPState i ev exp) = Ok (tt, mkPState i ev exp).
Proof. reflexivity. Qed.

(** X8: a LIST_ZIPLIST blob with short string entries is read as one
    [StartList] with the entry count, one [ListElement] per entry in order,
    and one [EndList]; the input after the blob is left unread. *)
Theorem read_list_ziplist_round_trip lzf key zlbytes zltail es tail rest ev exp :
  List.length zlbytes = 4%nat -> List.length zltail = 4%nat ->
  Z.of_nat (List.length es) < 65536 -> Forall zl_ok es ->
  let blob := ziplist_blob zlbytes zltail (Z.of_nat (List.length es))
                (List.concat (map ziplist_entry_str es)) tail in
  Z.of_nat (List.length blob) < 2 ^ 32 ->
  read_list_ziplist lzf key (mkPState (encode_blob blob ++ rest) ev exp)
  = Ok (tt, mkPState rest
              (ev ++ [StartList key (Z.of_nat (List.length es)) exp
                        (Ziplist (Z.of_nat (List.length blob)))]
                  ++ map (fun e => ListElement key (snd e)) es ++ [EndList key]) exp).
Proof.
  intros H1 H2 Hn Hes blob Hb. unfold read_list_ziplist.
  rewrite bind_step with (a := blob) (s' := mkPState rest ev exp)
    by (apply liftI_run; apply read_blob_encode_blob; exact Hb).
  cbv beta zeta.
  rewrite bind_step with
    (a := ((le_value zlbytes, le_value zltail, Z.of_nat (List.length es) mod 2 ^ 16),
           List.concat (map ziplist_entry_str es) ++ bz 255 :: tail))
    (s' := mkPState rest ev exp)
    by (unfold liftR, blob, ziplist_blob; rewrite read_ziplist_metadata_bytes by assumption;
        reflexivity).
  cbv beta iota. rewrite (Z.mod_small _ (2 ^ 16)) by lia.
  rewrite bind_step with (a := exp) (s' := mkPState rest ev exp) by reflexivity.
  erewrite bind_step by (unfold emit; reflexivity).
  rewrite Nat2Z.id.
  erewrite bind_step.
  2:{ apply (iter_reader_list zl_ok ziplist_entry_str (fun e => [ListElement key (snd e)])).
      - intros [p x] r i ev' exp' [Hp Hx]. cbv beta.
        rewrite bind_step with (a := (x, r)) (s' := mkPState i ev' exp')
          by (unfold liftR; rewrite read_ziplist_entry_string_short by assumption; reflexivity).
        reflexivity.
      - exact Hes. }
  cbv beta. rewrite concat_map_single.
  erewrite bind_step by apply check_end_byte_ok.
  unfold emit. cbn [input events last_expiretime].
  rewrite <- !app_assoc. reflexivity.
Qed.

Ltac emit_step := erewrite bind_step by (unfold emit; reflexivity).

Ltac exp_step := erewrite bind_step by reflexivity.

Ltac finish_events := unfold emit; cbn [input events last_expiretime];
  rewrite <- !app_assoc; reflexivity.

Lemma blob_ok_step lzf x r ev exp :
  Z.of_nat (List.length x) < 2 ^ 32 ->
  liftI (read_blob lzf) (mkPState (encode_blob x ++ r) ev exp) = Ok (x, mkPState r ev exp).
Proof. intros H. apply liftI_run. apply read_blob_encode_blob. exact H. Qed.

Lemma length_ok_step m r ev exp :
  0 <= m < 2 ^ 32 ->
  liftI read_length (mkPState (encode_length m ++ r) ev exp) = Ok (m, mkPState r ev exp).
Proof. intros H. apply liftI_run. apply read_length_encode_length. exact H. Qed.

(** X9: a HASH_ZIPLIST blob with 2n short string entries is read as one
    [StartHash] with n, one [HashElement] per (field, value) pair in order,
    and one [EndHash]. *)
Theorem read_hash_ziplist_round_trip lzf key zlbytes zltail es tail rest ev exp :
  List.length zlbytes = 4%nat -> List.length zltail = 4%nat ->
  2 * Z.of_nat (List.length es) < 65536 -> Forall zl_pair_ok es ->
  let blob := ziplist_blob zlbytes zltail (2 * Z.of_nat (List.length es))
                (List.concat (map ziplist_pair_str es)) tail in
  Z.of_nat (List.length blob) < 2 ^ 32 ->
  read_hash_ziplist lzf key (mkPState (encode_blob blob ++ rest) ev exp)
  = Ok (tt, mkPState rest
              (ev ++ [StartHash key (Z.of_nat (List.length es)) exp
                        (Ziplist (Z.of_nat (List.length blob)))]
                  ++ map (fun fv => HashElement key (snd (fst fv)) (snd (snd fv))) es
                  ++ [EndHash key]) exp).
Proof.
  intros H1 H2 Hn Hes blob Hb. unfold read_hash_ziplist.
  rewrite bind_step with (a := blob) (s' := mkPState rest ev exp) by (apply blob_ok_step; exact Hb).
  cbv beta zeta.
  rewrite bind_step with
    (a := ((le_value zlbytes, le_value zltail, 2 * Z.of_nat (List.length es) mod 2 ^ 16),
           List.concat (map ziplist_pair_str es) ++ bz 255 :: tail))
    (s' := mkPState rest ev exp)
    by (unfold liftR, blob, ziplist_blob; rewrite read_ziplist_metadata_bytes by assumption;
        reflexivity).
  cbv beta iota. rewrite (Z.mod_small _ (2 ^ 16)) by lia.
  rewrite bind_step with (a := tt) (s' := mkPState rest ev exp).
  2:{ unfold assert_even. rewrite Z.mul_comm, Z_mod_mult. reflexivity. }
  rewrite Z.mul_comm, Z.div_mul by lia.
  exp_step. emit_step. rewrite Nat2Z.id.
  erewrite bind_step.
  2:{ apply (iter_reader_list zl_pair_ok ziplist_pair_str
               (fun fv => [HashElement key (snd (fst fv)) (snd (snd fv))])).
      - intros [[p1 f] [p2 v]] r i ev' exp' [[Hp1 Hf] [Hp2 Hv]]. cbv beta.
        unfold ziplist_pair_str. cbn [fst snd]. rewrite <- app_assoc.
        rewrite bind_step with (a := (f, ziplist_entry_str (p2, v) ++ r)) (s' := mkPState i ev' exp')
          by (unfold liftR; rewrite read_ziplist_entry_string_short by assumption; reflexivity).
        rewrite bind_step with (a := (v, r)) (s' := mkPState i ev' exp')
          by (unfold liftR; rewrite read_ziplist_entry_string_short by assumption; reflexivity).
        reflexivity.
      - exact Hes. }
  cbv beta. rewrite concat_map_single.
  erewrite bind_step by apply check_end_byte_ok.
  finish_events.
Qed.



(** X12: a LIST or SET value (a count, then that many blobs) is read as one
    start event with the count, one [ListElement] per blob in order, and
    the matching end event. *)
Theorem read_linked_list_round_trip lzf key xs rest ev exp :
  Z.of_nat (List.length xs) < 2 ^ 32 -> Forall blob_ok xs ->
  let input := encode_length (Z.of_nat (List.length xs))
               ++ List.concat (map encode_blob xs) ++ rest in
  read_linked_list lzf key TList (mkPState input ev exp)
  = Ok (tt, mkPState rest
              (ev ++ [StartList key (Z.of_nat (List.length xs)) exp LinkedList]
                  ++ map (ListElement key) xs ++ [EndList key]) exp)
  /\ read_linked_list lzf key TSet (mkPState input ev exp)
  = Ok (tt, mkPState rest
              (ev ++ [StartSet key (Z.of_nat (List.length xs)) exp LinkedList]
                  ++ map (ListElement key) xs ++ [EndSet key]) exp).
Proof.
  intros Hn Hxs input. unfold read_linked_list, input.
  split;
   (erewrite bind_step by (apply length_ok_step; lia);
    exp_step; emit_step; rewrite Nat2Z.id;
    erewrite bind_step;
    [| apply (repeatM_list blob_ok encode_blob (fun x => [ListElement key x]));
       [ intros x r ev' exp' Hx;
         rewrite bind_step with (a := x) (s' := mkPState r ev' exp') by (apply blob_ok_step; exact Hx);
         reflexivity
       | exact Hxs ] ];
    rewrite concat_map_single; finish_events).
Qed.

(** X13: a HASH value (a count, then that many field and value blobs) is
    read as one [StartHash] with the count, one [HashElement] per pair in
    order, and one [EndHash]. *)
Theorem read_hash_round_trip lzf key fvs rest ev exp :
  Z.of_nat (List.length fvs) < 2 ^ 32 -> Forall blob_pair_ok fvs ->
  read_hash lzf key
    (mkPState (encode_length (Z.of_nat (List.length fvs))
               ++ List.concat (map blob_pair fvs) ++ rest) ev exp)
  = Ok (tt, mkPState rest
              (ev ++ [StartHash key (Z.of_nat (List.length fvs)) exp Hashtable]
                  ++ map (fun fv => HashElement key (fst fv) (snd fv)) fvs
                  ++ [EndHash key]) exp).
Proof.
  intros Hn Hfvs. unfold read_hash.
  erewrite bind_step by (apply length_ok_step; lia).
  exp_step. emit_step. rewrite Nat2Z.id.
  erewrite bind_step.
  2:{ apply (repeatM_list blob_pair_ok blob_pair (fun fv => [HashElement key (fst fv) (snd fv)])).
      - intros [f v] r ev' exp' [Hf Hv]. unfold blob_pair. cbn [fst snd]. rewrite <- app_assoc.
        rewrite bind_step with (a := f) (s' := mkPState (encode_blob v ++ r) ev' exp')
          by (apply blob_ok_step; exact Hf).
        rewrite bind_step with (a := v) (s' := mkPState r ev' exp')
          by (apply blob_ok_step; exact Hv).
        reflexivity.
      - exact Hfvs. }
  rewrite concat_map_single. finish_events.
Qed.

(** X14: a ZSET_2 value (a count, then that many member blobs each followed
    by an 8-byte little-endian score) is read as one [StartSortedSet], one
    [SortedSetElement] per member with the score's bit pattern, and one
    [EndSortedSet]. *)
Theorem read_sorted_set_type_2_round_trip lzf key ms rest ev exp :
  Z.of_nat (List.length ms) < 2 ^ 32 -> Forall zset2_ok ms ->
  read_sorted_set_type_2 lzf key
    (mkPState (encode_length (Z.of_nat (List.length ms))
               ++ List.concat (map zset2_entry ms) ++ rest) ev exp)
  = Ok (tt, mkPState rest
              (ev ++ [StartSortedSet key (Z.of_nat (List.length ms)) exp Hashtable]
                  ++ map (fun m => SortedSetElement key (snd m) (fst m)) ms
                  ++ [EndSortedSet key]) exp).
Proof.
  intros Hn Hms. unfold read_sorted_set_type_2.
  rewrite bind_step with (a := Z.of_nat (List.length ms))
    (s' := mkPState (List.concat (map zset2_entry ms) ++ rest) ev exp).
  2:{ apply liftI_run. apply unwrap_or_panic_ok. apply read_length_encode_length. lia. }
  exp_step. emit_step. rewrite Nat2Z.id.
  erewrite bind_step.
  2:{ apply (repeatM_list zset2_ok zset2_entry (fun m => [SortedSetElement key (snd m) (fst m)])).
      - intros [m sc] r ev' exp' [Hm Hs]. unfold zset2_entry. cbn [fst snd] in *.
        rewrite <- app_assoc.
        rewrite bind_step with (a := m) (s' := mkPState (le_bytes 8 sc ++ r) ev' exp')
          by (apply blob_ok_step; exact Hm).
        rewrite bind_step with (a := sc) (s' := mkPState r ev' exp').
        2:{ apply liftI_run. unfold read_f64_le.
            pose proof (read_le_bytes 8 sc r) as E. cbn [Z.of_nat Pos.of_succ_nat Pos.succ] in E.
            rewrite E. rewrite Z.mod_small by (cbn; lia). reflexivity. }
        reflexivity.
      - exact Hms. }
  rewrite concat_map_single. finish_events.
Qed.

Lemma score_length_default pf (b : byte) st :
  u8 b < 253 ->
  (match u8 b with
   | 253 => ret F64_NAN
   | 254 => ret F64_INFINITY
   | 255 => ret F64_NEG_INFINITY
   | _ => tmp <- liftI (read_exact (u8 b)) ;; unwrap_f64 (pf tmp)
   end) st
  = (tmp <- liftI (read_exact (u8 b)) ;; unwrap_f64 (pf tmp)) st.
Proof. intros H. destruct b; cbv [u8 Byte.to_N Z.of_N] in *; try lia; reflexivity. Qed.

(** X15: a ZSET value whose scores are written as a one-byte length below
    253 and text that [parse_f64] accepts is read as one [StartSortedSet],
    one [SortedSetElement] per member with the parsed score, and one
    [EndSortedSet]. *)
Theorem read_sorted_set_round_trip lzf pf key es rest ev exp :
  Z.of_nat (List.length es) < 2 ^ 32 -> Forall (zset_ok pf) es ->
  read_sorted_set lzf pf key
    (mkPState (encode_length (Z.of_nat (List.length es))
               ++ List.concat (map zset_entry es) ++ rest) ev exp)
  = Ok (tt, mkPState rest
              (ev ++ [StartSortedSet key (Z.of_nat (List.length es)) exp Hashtable]
                  ++ map (fun '(m, _, f) => SortedSetElement key f m) es
                  ++ [EndSortedSet key]) exp).
Proof.
  intros Hn Hes. unfold read_sorted_set.
  rewrite bind_step with (a := Z.of_nat (List.length es))
    (s' := mkPState (List.concat (map zset_entry es) ++ rest) ev exp).
  2:{ apply liftI_run. apply unwrap_or_panic_ok. apply read_length_encode_length. lia. }
  exp_step. emit_step. rewrite Nat2Z.id.
  erewrite bind_step.
  2:{ apply (repeatM_list (zset_ok pf) zset_entry
               (fun '(m, _, f) => [SortedSetElement key f m])).
      - intros [[m t] f] r ev' exp' (Hm & Ht & Hf). unfold zset_entry.
        rewrite <- app_assoc.
        rewrite bind_step with (a := m)
          (s' := mkPState ((bz (Z.of_nat (List.length t)) :: t) ++ r) ev' exp')
          by (apply blob_ok_step; exact Hm).
        rewrite bind_step with (a := u8 (bz (Z.of_nat (List.length t))))
          (s' := mkPState (t ++ r) ev' exp') by reflexivity.
        rewrite bind_step with (a := f) (s' := mkPState r ev' exp').
        2:{ rewrite score_length_default by (rewrite u8_bz; lia).
            rewrite u8_bz by lia.
            rewrite bind_step with (a := t) (s' := mkPState r ev' exp')
              by (apply liftI_run; apply read_exact_app).
            rewrite Hf. reflexivity. }
        reflexivity.
      - exact Hes. }
  replace (List.concat (map (fun '(m, _, f) => [SortedSetElement key f m]) es))
    with (map (fun '(m, _, f) => SortedSetElement key f m) es).
  2:{ clear. induction es as [|[[m t] f] es IH]; cbn; [reflexivity|]. rewrite IH. reflexivity. }
  finish_events.
Qed.

(** ** intsets *)
Lemma read_signed_le_bytes w k (rd : RM Z) x r :
  rd = (v <- read_le (Z.of_nat k) ;; ret (to_signed w v)) ->
  w = 8 * Z.of_nat k -> (1 <= k)%nat -> - 2 ^ (w - 1) <= x < 2 ^ (w - 1) ->
  rd (le_bytes k x ++ r) = Ok (x, r).
Proof.
  intros -> Hw Hk Hx.
  rewrite bind_step with (a := x mod 2 ^ w) (s' := r) by (subst w; apply read_le_bytes).
  unfold ret. rewrite to_signed_mod by lia. reflexivity.
Qed.

Lemma intset_other_size (k : Z) (r : list byte) :
  k <> 2 -> k <> 4 -> k <> 8 ->
  (match k with
   | 2 => read_i16_le r
   | 4 => read_i32_le r
   | 8 => read_i64_le r
   | _ => Err (Panic "unhandled byte size in intset")
   end) = Err (Panic "unhandled byte size in intset").
Proof.
  intros H2 H4 H8. destruct k as [|p|p]; try reflexivity.
  do 4 (try (match goal with p : positive |- _ => destruct p end)).
  all: first [reflexivity | congruence].
Qed.

(** X16: an INTSET blob with element size 2, 4 or 8 is read as one
    [StartSet] with the declared count, one [SetElement] per integer in
    order holding its decimal text, and one [EndSet]; bytes after the
    counted elements inside the blob are ignored. *)
Theorem read_set_intset_round_trip lzf key byte_size xs tail rest ev exp :
  byte_size = 2 \/ byte_size = 4 \/ byte_size = 8 ->
  Forall (intset_ok byte_size) xs -> Z.of_nat (List.length xs) < 2 ^ 32 ->
  Z.of_nat (List.length (intset_blob byte_size xs tail)) < 2 ^ 32 ->
  read_set_intset lzf key (mkPState (encode_blob (intset_blob byte_size xs tail) ++ rest) ev exp)
  = Ok (tt, mkPState rest
              (ev ++ [StartSet key (Z.of_nat (List.length xs)) exp
                        (Intset (Z.of_nat (List.length (intset_blob byte_size xs tail))))]
                  ++ map (fun x => SetElement key (to_string x)) xs ++ [EndSet key]) exp).
Proof.
  intros Hk Hxs Hn Hb. unfold read_set_intset.
  rewrite bind_step with (a := intset_blob byte_size xs tail) (s' := mkPState rest ev exp)
    by (apply blob_ok_step; exact Hb).
  cbv beta zeta.
  rewrite bind_step with (a := (byte_size, le_bytes 4 (Z.of_nat (List.length xs))
      ++ List.concat (map (le_bytes (Z.to_nat byte_size)) xs) ++ tail))
    (s' := mkPState rest ev exp).
  2:{ unfold liftR, intset_blob, read_u32_le.
      rewrite (read_le_bytes 4 byte_size). rewrite Z.mod_small by (cbn; lia). reflexivity. }
  cbv beta iota.
  rewrite bind_step with (a := (Z.of_nat (List.length xs),
      List.concat (map (le_bytes (Z.to_nat byte_size)) xs) ++ tail))
    (s' := mkPState rest ev exp).
  2:{ unfold liftR, read_u32_le.
      rewrite (read_le_bytes 4 (Z.of_nat (List.length xs))). rewrite Z.mod_small by (cbn; lia).
      reflexivity. }
  cbv beta iota. exp_step. emit_step. rewrite Nat2Z.id.
  erewrite bind_step.
  2:{ apply (iter_reader_list (intset_ok byte_size) (le_bytes (Z.to_nat byte_size))
               (fun x => [SetElement key (to_string x)])).
      - intros x r i ev' exp' Hx.
        rewrite bind_step with (a := (x, r)) (s' := mkPState i ev' exp').
        2:{ unfold liftR, intset_ok in *.
            destruct Hk as [ -> | [ -> | -> ] ]; cbv iota.
            - rewrite (read_signed_le_bytes 16 (Z.to_nat 2) read_i16_le x r eq_refl eq_refl ltac:(lia) Hx).
              reflexivity.
            - rewrite (read_signed_le_bytes 32 (Z.to_nat 4) read_i32_le x r eq_refl eq_refl ltac:(lia) Hx).
              reflexivity.
            - rewrite (read_signed_le_bytes 64 (Z.to_nat 8) read_i64_le x r eq_refl eq_refl ltac:(lia) Hx).
              reflexivity. }
        reflexivity.
      - exact Hxs. }
  rewrite concat_map_single. finish_events.
Qed.

(** X17: an INTSET blob with an element size other than 2, 4 or 8 and at
    least one element makes the reader panic. *)
Theorem read_set_intset_bad_size lzf key byte_size n data rest ev exp :
  byte_size <> 2 -> byte_size <> 4 -> byte_size <> 8 -> 0 <= byte_size < 2 ^ 32 ->
  1 <= n < 2 ^ 32 ->
  Z.of_nat (List.length (le_bytes 4 byte_size ++ le_bytes 4 n ++ data)) < 2 ^ 32 ->
  read_set_intset lzf key
    (mkPState (encode_blob (le_bytes 4 byte_size ++ le_bytes 4 n ++ data) ++ rest) ev exp)
  = Err (Panic "unhandled byte size in intset").
Proof.
  intros H2 H4 H8 Hk Hn Hb. unfold read_set_intset.
  rewrite bind_step with (a := le_bytes 4 byte_size ++ le_bytes 4 n ++ data)
    (s' := mkPState rest ev exp) by (apply blob_ok_step; exact Hb).
  cbv beta zeta.
  rewrite bind_step with (a := (byte_size, le_bytes 4 n ++ data)) (s' := mkPState rest ev exp).
  2:{ unfold liftR, read_u32_le.
      rewrite (read_le_bytes 4 byte_size). rewrite Z.mod_small by (cbn; lia). reflexivity. }
  cbv beta iota.
  rewrite bind_step with (a := (n, data)) (s' := mkPState rest ev exp).
  2:{ unfold liftR, read_u32_le.
      rewrite (read_le_bytes 4 n). rewrite Z.mod_small by (cbn; lia). reflexivity. }
  cbv beta iota. exp_step. emit_step.
  destruct (Z.to_nat n) as [|m] eqn:Em; [lia|].
  cbn [iter_reader]. unfold bind at 2 3. unfold liftR at 1.
  rewrite intset_other_size by assumption. reflexivity.
Qed.








Lemma liftI_inv {A} (m : RM A) s a s' :
  liftI m s = Ok (a, s') -> m (input s) = Ok (a, input s').
Proof.
  unfold liftI. destruct (m (input s)) as [[b i]|e]; intros H; [|discriminate].
  injection H as <- <-. reflexivity.
Qed.

Lemma unwrap_or_panic_inv {S A} (m : ST S A) s x :
  unwrap_or_panic m s = Ok x -> m s = Ok x.
Proof. unfold unwrap_or_panic. destruct (m s); [auto | discriminate]. Qed.

Lemma emit_input e s a s' : emit e s = Ok (a, s') -> input s' = input s.
Proof. unfold emit. intros H. injection H as _ <-. reflexivity. Qed.

Lemma liftR_input {A} (r : res A) s a s' : liftR r s = Ok (a, s') -> s' = s.
Proof. unfold liftR. destruct r as [b|e]; intros H; [injection H as _ <-; reflexivity | discriminate]. Qed.

Lemma get_expiretime_input s a s' : get_expiretime s = Ok (a, s') -> s' = s.
Proof. unfold get_expiretime. intros H. injection H as _ <-. reflexivity. Qed.

Ltac kin :=
  repeat match goal with
  | H : bind _ _ _ = Ok (_, _) |- _ =>
      apply bind_inv in H; destruct H as (? & ? & ? & H); cbv beta iota zeta in H
  | H : ret _ _ = Ok _ |- _ => unfold ret in H; injection H; clear H; intros; subst
  | H : fail _ _ = Ok _ |- _ => discriminate H
  | x : unit |- _ => destruct x
  | H : emit _ _ = Ok _ |- _ => apply emit_input in H
  | H : get_expiretime _ = Ok _ |- _ => apply get_expiretime_input in H; subst
  | H : liftR _ _ = Ok _ |- _ => apply liftR_input in H; subst
  | H : liftI _ _ = Ok _ |- _ => apply liftI_inv in H
  | H : (match ?x with _ => _ end) _ = Ok _ |- _ => destruct x; cbv beta iota zeta in H
  end.

Lemma check_end_byte_input r msg s a s' :
  check_end_byte r msg s = Ok (a, s') -> input s' = input s.
Proof. unfold check_end_byte. intros H. kin. reflexivity. Qed.

Lemma assert_even_input n s a s' : assert_even n s = Ok (a, s') -> input s' = input s.
Proof. unfold assert_even. intros H. kin. reflexivity. Qed.

Lemma unwrap_f64_input o s a s' : unwrap_f64 o s = Ok (a, s') -> input s' = input s.
Proof. unfold unwrap_f64. intros H. kin. reflexivity. Qed.

Lemma iter_reader_input (body : list byte -> M (list byte)) :
  (forall r s a s', body r s = Ok (a, s') -> input s' = input s) ->
  forall n reader s a s', iter_reader n body reader s = Ok (a, s') -> input s' = input s.
Proof.
  intros Hb n. induction n as [|n IH]; intros reader s a s' H; cbn [iter_reader] in H.
  - kin. reflexivity.
  - kin. apply Hb in H0. apply IH in H. congruence.
Qed.

Lemma zipmap_loop_input key : forall fuel len reader s a s',
  zipmap_loop key fuel len reader s = Ok (a, s') -> input s' = input s.
Proof.
  induction fuel as [|fuel IH]; intros len reader s a s' H; cbn [zipmap_loop] in H; kin.
  all: repeat match goal with
         | H : check_end_byte _ _ _ = Ok _ |- _ => apply check_end_byte_input in H
         | H : zipmap_loop _ _ _ _ _ = Ok _ |- _ => apply IH in H
         | H : (if ?c then _ else _) _ = Ok _ |- _ => destruct c
         end; kin; try reflexivity; congruence.
Qed.

Ltac kin_all :=
  kin;
  repeat match goal with
  | H : check_end_byte _ _ _ = Ok _ |- _ => apply check_end_byte_input in H
  | H : assert_even _ _ = Ok _ |- _ => apply assert_even_input in H
  | H : unwrap_f64 _ _ = Ok _ |- _ => apply unwrap_f64_input in H
  | H : zipmap_loop _ _ _ _ _ = Ok _ |- _ => apply zipmap_loop_input in H
  | H : iter_reader _ _ _ _ = Ok _ |- _ =>
      apply iter_reader_input in H;
      [| clear H; intros ? ? ? ? H; kin;
         repeat match goal with
         | H : unwrap_f64 _ _ = Ok _ |- _ => apply unwrap_f64_input in H
         end; congruence]
  end.

(** The readers of a value stored as one blob read that blob and then work
    on the blob's bytes only. *)
Lemma one_blob_reader lzf (k : list byte -> M unit) s s' :
  (forall x s1 a s2, k x s1 = Ok (a, s2) -> input s2 = input s1) ->
  bind (liftI (read_blob lzf)) k s = Ok (tt, s') ->
  skip_blob (input s) = Ok (tt, input s').
Proof.
  intros Hk H. kin. apply read_blob_then_skip_blob in H0. apply Hk in H. congruence.
Qed.

Lemma repeatM_sim (body : M unit) (bodyR : RM unit) :
  (forall s s', body s = Ok (tt, s') -> bodyR (input s) = Ok (tt, input s')) ->
  forall n s s', repeatM n body s = Ok (tt, s') -> repeatM n bodyR (input s) = Ok (tt, input s').
Proof.
  intros Hb n. induction n as [|n IH]; intros s s' H; cbn [repeatM] in H |- *.
  - unfold ret in H |- *. injection H as <-. reflexivity.
  - apply bind_inv in H. destruct H as ([] & s1 & H1 & H).
    apply Hb in H1. apply IH in H. rewrite (bind_step _ _ _ _ _ H1). exact H.
Qed.

Lemma repeatM_double (b : RM unit) : forall n i,
  repeatM n (b ;; b) i = repeatM (2 * n) b i.
Proof.
  induction n as [|n IH]; intros i; [reflexivity|].
  replace (2 * S n)%nat with (S (S (2 * n))) by lia.
  cbn [repeatM]. unfold bind.
  destruct (b i) as [[[] i1]|e]; [|reflexivity].
  destruct (b i1) as [[[] i2]|e]; [|reflexivity].
  rewrite IH. reflexivity.
Qed.

Lemma read_length_with_encoding_consumes i l r :
  read_length_with_encoding i = Ok (l, r) -> (List.length r < List.length i)%nat.
Proof.
  intros H. destruct (read_length_with_encoding_cases i) as [E|(p & r' & len & enc & E & Ei & Hp & _)];
    rewrite E in H; [discriminate|].
  injection H as _ <-. subst i. rewrite length_app. lia.
Qed.

Lemma read_length_consumes i l r :
  read_length i = Ok (l, r) -> (List.length r < List.length i)%nat.
Proof.
  unfold read_length. intros H. kin. apply read_length_with_encoding_consumes in H0. lia.
Qed.

Lemma read_exact_consumes n i l r :
  read_exact n i = Ok (l, r) -> (List.length r <= List.length i)%nat.
Proof.
  unfold read_exact. destruct (_ && _); intros H; [|discriminate].
  injection H as _ <-. rewrite length_skipn. lia.
Qed.

Lemma skip_blob_consumes i r :
  skip_blob i = Ok (tt, r) -> (List.length r < List.length i)%nat.
Proof.
  unfold skip_blob, skip. intros H. kin.
  all: repeat match goal with
       | H : unwrap_or_panic _ _ = Ok _ |- _ => apply unwrap_or_panic_inv in H
       | H : read_length_with_encoding _ = Ok _ |- _ => apply read_length_with_encoding_consumes in H
       | H : read_length _ = Ok _ |- _ => apply read_length_consumes in H
       | H : read_exact _ _ = Ok _ |- _ => apply read_exact_consumes in H
       end; lia.
Qed.

Lemma repeatM_skip_blob_consumes : forall n i r,
  repeatM n skip_blob i = Ok (tt, r) -> (List.length r + n <= List.length i)%nat.
Proof.
  induction n as [|n IH]; intros i r H; cbn [repeatM] in H.
  - unfold ret in H. injection H as <-. lia.
  - apply bind_inv in H. destruct H as ([] & i1 & H1 & H).
    apply skip_blob_consumes in H1. apply IH in H. lia.
Qed.

Lemma read_length_range i l r : read_length i = Ok (l, r) -> 0 <= l < 2 ^ 32.
Proof.
  unfold read_length. intros H. apply bind_inv in H. destruct H as ([len enc] & i1 & H1 & H).
  unfold ret in H. injection H as <- _.
  destruct (read_length_with_encoding_cases i) as [E|(p & r' & len' & enc' & E & _ & _ & Hl & _)];
    rewrite E in H1; [discriminate|]. injection H1 as <- _ _. exact Hl.
Qed.

Lemma read_f64_le_skip i v r : read_f64_le i = Ok (v, r) -> skip 8 i = Ok (tt, r).
Proof.
  unfold read_f64_le, read_le, skip, bind, ret. destruct (read_exact 8 i) as [[bs i1]|e];
    intros H; [injection H as _ <-; reflexivity | discriminate].
Qed.

Ltac blob_body :=
  intros ? ? Hb; kin_all;
  repeat match goal with
  | H : read_blob _ _ = Ok _ |- _ => apply read_blob_then_skip_blob in H
  | H : read_f64_le _ = Ok _ |- _ => apply read_f64_le_skip in H
  end;
  repeat (erewrite bind_step by eassumption); congruence.

Lemma read_linked_list_skip lzf key typ s s' :
  read_linked_list lzf key typ s = Ok (tt, s') ->
  bind (unwrap_or_panic read_length) (fun n => repeatM (Z.to_nat n) skip_blob) (input s)
  = Ok (tt, input s').
Proof.
  unfold read_linked_list. intros H. kin.
  all: match goal with
       | H : repeatM _ _ _ = Ok _ |- _ =>
           apply (repeatM_sim _ skip_blob) in H; [|blob_body]
       end.
  all: erewrite bind_step by (apply unwrap_or_panic_ok; eassumption).
  all: congruence.
Qed.

Lemma read_quicklist_skip lzf key s s' :
  read_quicklist lzf key s = Ok (tt, s') ->
  bind (unwrap_or_panic read_length) (fun n => repeatM (Z.to_nat n) skip_blob) (input s)
  = Ok (tt, input s').
Proof.
  unfold read_quicklist. intros H. kin.
  match goal with
  | H : repeatM _ _ _ = Ok _ |- _ =>
      apply (repeatM_sim _ skip_blob) in H;
      [|intros ? ? Hq; unfold read_quicklist_ziplist in Hq;
        eapply one_blob_reader; [|exact Hq]; intros ? ? ? ? Hk; kin_all; congruence]
  end.
  erewrite bind_step by (apply unwrap_or_panic_ok; eassumption). congruence.
Qed.

Lemma read_sorted_set_type_2_skip lzf key s s' :
  read_sorted_set_type_2 lzf key s = Ok (tt, s') ->
  bind (bind read_length (fun length =>
          bind (repeatM (Z.to_nat length) (skip_blob ;; skip 8)) (fun _ => ret 0)))
       (fun b => repeatM (Z.to_nat b) skip_blob) (input s)
  = Ok (tt, input s').
Proof.
  unfold read_sorted_set_type_2. intros H. kin.
  match goal with
  | H : unwrap_or_panic _ _ = Ok _ |- _ => apply unwrap_or_panic_inv in H
  end.
  match goal with
  | H : repeatM _ _ _ = Ok _ |- _ =>
      apply (repeatM_sim _ (skip_blob ;; skip 8)) in H; [|blob_body]
  end.
  rewrite H2 in H3. rewrite H.
  erewrite bind_step. 2:{ erewrite bind_step by eassumption.
                          erewrite bind_step by eassumption. reflexivity. }
  reflexivity.
Qed.

Lemma read_hash_skip lzf key s s' :
  Z.of_nat (List.length (input s)) < 2 ^ 32 ->
  read_hash lzf key s = Ok (tt, s') ->
  bind (bind (unwrap_or_panic read_length) (fun n => ret ((n * 2) mod 2 ^ 32)))
       (fun b => repeatM (Z.to_nat b) skip_blob) (input s)
  = Ok (tt, input s').
Proof.
  unfold read_hash. intros Hlen H. kin.
  match goal with
  | H : repeatM _ _ _ = Ok _ |- _ =>
      apply (repeatM_sim _ (skip_blob ;; skip_blob)) in H; [|blob_body]
  end.
  match goal with
  | H : read_length _ = Ok (?n, _) |- _ =>
      pose proof (read_length_range _ _ _ H) as Hn;
      pose proof (read_length_consumes _ _ _ H) as Hc;
      erewrite bind_step by (erewrite bind_step by (apply unwrap_or_panic_ok; exact H); reflexivity)
  end.
  match goal with
  | H : repeatM _ _ _ = Ok _ |- _ =>
      rewrite repeatM_double in H;
      pose proof (repeatM_skip_blob_consumes _ _ _ H) as Hr
  end.
  match goal with
  | |- repeatM (Z.to_nat ((?n * 2) mod _)) _ _ = _ =>
      replace (Z.to_nat ((n * 2) mod 2 ^ 32)) with (2 * Z.to_nat n)%nat
  end.
  - congruence.
  - repeat match goal with E : input _ = input _ |- _ => rewrite E in *; clear E end.
    rewrite Z.mod_small by lia. rewrite Z2Nat.inj_mul by lia. lia.
Qed.

Lemma skip_object_one_blob t i r :
  t = 0 \/ (9 <= t <= 13) -> skip_blob i = Ok (tt, r) -> skip_object t i = Ok (tt, r).
Proof.
  intros Ht H.
  assert (E : skip_object t i = bind skip_blob (fun _ => ret tt) i).
  { assert (t = 0 \/ t = 9 \/ t = 10 \/ t = 11 \/ t = 12 \/ t = 13) as Ht' by lia.
    destruct Ht' as [-> | [-> | [-> | [-> | [-> | ->]]]]]; reflexivity. }
  rewrite E. rewrite (bind_step _ _ _ _ _ H). reflexivity.
Qed.

Ltac one_blob :=
  eapply one_blob_reader; [|eassumption]; intros ? ? ? ? Hk; kin_all; congruence.

(** X19: reading a value and skipping it agree: for every value type but ZSET
    (3), when [read_type] succeeds, [skip_object] on the same input
    succeeds and stops where the reader stopped, provided the input is
    shorter than 2^32 bytes ([skip_object] counts HASH blobs in [u32]). *)
Theorem read_type_skip_object lzf pf key t s s' :
  t <> 3 -> Z.of_nat (List.length (input s)) < 2 ^ 32 ->
  read_type lzf pf key t s = Ok (tt, s') ->
  skip_object t (input s) = Ok (tt, input s').
Proof.
  intros Ht Hlen H.
  destruct t as [|p|p]; [| |discriminate H].
  - apply skip_object_one_blob; [lia|]. cbn [read_type] in H. one_blob.
  - destruct p as [p|p|]; try destruct p as [p|p|]; try destruct p as [p|p|];
      try destruct p as [p|p|]; try discriminate H.
    all: cbn [read_type] in H.
    all: first
      [ contradiction Ht; reflexivity
      | apply skip_object_one_blob; [lia|]; unfold read_hash_zipmap, read_list_ziplist,
          read_set_intset, read_sortedset_ziplist, read_hash_ziplist in H; one_blob
      | exact (read_linked_list_skip _ _ _ _ _ H)
      | exact (read_quicklist_skip _ _ _ _ H)
      | exact (read_sorted_set_type_2_skip _ _ _ _ H)
      | exact (read_hash_skip _ _ _ _ Hlen H) ].
Qed.

Lemma liftI_events {A} (m : RM A) s a s' :
  liftI m s = Ok (a, s') -> events s' = events s.
Proof.
  unfold liftI. destruct (m (input s)) as [[b i]|e]; intros H; [|discriminate].
  injection H as _ <-. reflexivity.
Qed.

Lemma emit_events e s a s' : emit e s = Ok (a, s') ->
  events s' = events s ++ [e] /\ input s' = input s.
Proof. unfold emit. intros H. injection H as _ <-. auto. Qed.

Lemma set_expiretime_events o s a s' : set_expiretime o s = Ok (a, s') ->
  events s' = events s /\ input s' = input s.
Proof. unfold set_expiretime. intros H. injection H as _ <-. auto. Qed.

Lemma input_length_state s a s' : input_length s = Ok (a, s') -> s' = s /\ a = List.length (input s).
Proof. unfold input_length. intros H. injection H as <- <-. auto. Qed.

Ltac ev_close :=
  eexists;
  repeat match goal with
  | E : events ?a = _ |- context [events ?a] => rewrite E
  end; rewrite <- ?app_assoc;
  first [ reflexivity | rewrite app_nil_r; reflexivity ].

Lemma repeatM_events (body : M unit) :
  (forall s a s', body s = Ok (a, s') -> exists e, events s' = events s ++ e) ->
  forall n s a s', repeatM n body s = Ok (a, s') -> exists e, events s' = events s ++ e.
Proof.
  intros Hb n. induction n as [|n IH]; intros s a s' H; cbn [repeatM] in H.
  - unfold ret in H. injection H as _ <-. exists []. rewrite app_nil_r. reflexivity.
  - apply bind_inv in H. destruct H as (u & s1 & H1 & H).
    destruct (Hb _ _ _ H1) as [e1 E1]. destruct (IH _ _ _ H) as [e2 E2].
    exists (e1 ++ e2). rewrite E2, E1, app_assoc. reflexivity.
Qed.

Lemma iter_reader_events (body : list byte -> M (list byte)) :
  (forall r s a s', body r s = Ok (a, s') -> exists e, events s' = events s ++ e) ->
  forall n reader s a s', iter_reader n body reader s = Ok (a, s') ->
  exists e, events s' = events s ++ e.
Proof.
  intros Hb n. induction n as [|n IH]; intros reader s a s' H; cbn [iter_reader] in H.
  - unfold ret in H. injection H as _ <-. exists []. rewrite app_nil_r. reflexivity.
  - apply bind_inv in H. destruct H as (r & s1 & H1 & H).
    destruct (Hb _ _ _ _ H1) as [e1 E1]. destruct (IH _ _ _ _ H) as [e2 E2].
    exists (e1 ++ e2). rewrite E2, E1, app_assoc. reflexivity.
Qed.

Ltac kev :=
  repeat match goal with
  | H : bind _ _ _ = Ok (_, _) |- _ =>
      apply bind_inv in H; destruct H as (? & ? & ? & H); cbv beta iota zeta in H
  | H : ret _ _ = Ok _ |- _ => unfold ret in H; injection H; clear H; intros; subst
  | H : fail _ _ = Ok _ |- _ => discriminate H
  | x : unit |- _ => destruct x
  | H : emit _ _ = Ok _ |- _ => apply emit_events in H; destruct H
  | H : set_expiretime _ _ = Ok _ |- _ => apply set_expiretime_events in H; destruct H
  | H : input_length _ = Ok _ |- _ => apply input_length_state in H; destruct H; subst
  | H : get_expiretime _ = Ok _ |- _ => apply get_expiretime_input in H; subst
  | H : liftR _ _ = Ok _ |- _ => apply liftR_input in H; subst
  | H : liftI _ _ = Ok _ |- _ => pose proof (liftI_events _ _ _ _ H); apply liftI_inv in H
  | H : repeatM _ _ _ = Ok _ |- _ =>
      apply repeatM_events in H; [destruct H | clear H; intros ? ? ? H; kev; ev_close]
  | H : iter_reader _ _ _ _ = Ok _ |- _ =>
      apply iter_reader_events in H; [destruct H | clear H; intros ? ? ? ? H; kev; ev_close]
  | H : (match ?x with _ => _ end) _ = Ok _ |- _ => destruct x eqn:?; cbv beta iota zeta in H
  end.

Lemma zipmap_loop_events key : forall fuel len reader s a s',
  zipmap_loop key fuel len reader s = Ok (a, s') -> exists e, events s' = events s ++ e.
Proof.
  induction fuel as [|fuel IH]; intros len reader s a s' H; cbn [zipmap_loop] in H;
    unfold check_end_byte in H; kev.
  all: repeat match goal with
         | H : zipmap_loop _ _ _ _ _ = Ok _ |- _ => apply IH in H; destruct H
         end; kev; ev_close.
Qed.

Lemma read_type_events lzf pf key t s a s' :
  read_type lzf pf key t s = Ok (a, s') -> exists e, events s' = events s ++ e.
Proof.
  intros H.
  unfold read_type, read_linked_list, read_sorted_set, read_sorted_set_type_2, read_hash,
    read_hash_zipmap, read_list_ziplist, read_set_intset, read_sortedset_ziplist,
    read_hash_ziplist, read_quicklist, read_quicklist_ziplist, check_end_byte,
    assert_even, unwrap_f64 in H.
  kev.
  all: repeat match goal with
         | H : zipmap_loop _ _ _ _ _ = Ok _ |- _ => apply zipmap_loop_events in H; destruct H
         end.
  all: ev_close.
Qed.

Lemma parse_step_events lzf pf filter db s r s' :
  parse_step lzf pf filter db s = Ok (r, s') ->
  (exists e, events s' = events s ++ e) /\
  (r = None -> input s' = [] /\
     exists cs, events s' = events s ++ [EndDatabase db; EndRdb] ++ checksum_events cs).
Proof.
  intros H. unfold parse_step in H. kev.
  all: repeat match goal with
         | H : read_type _ _ _ _ _ = Ok _ |- _ => apply read_type_events in H; destruct H
         end.
  all: split; [ev_close | intros; try discriminate].
  all: match goal with
       | H : read_to_end _ = Ok _ |- _ => unfold read_to_end in H; injection H as <- ?
       end.
  all: split; [congruence|].
  all: match goal with
       | E : Nat.ltb 0 (List.length ?cs) = _ |- _ =>
           exists cs; unfold checksum_events; rewrite E
       end.
  all: repeat match goal with
       | E : events ?a = _ |- context [events ?a] => rewrite E
       end; rewrite <- ?app_assoc; rewrite ?app_nil_r; reflexivity.
Qed.

Lemma parse_loop_events lzf pf filter : forall fuel db s s',
  parse_loop lzf pf filter fuel db s = Ok (tt, s') ->
  input s' = [] /\
  exists mid db' cs,
    events s' = events s ++ mid ++ [EndDatabase db'; EndRdb] ++ checksum_events cs.
Proof.
  induction fuel as [|fuel IH]; intros db s s' H; cbn [parse_loop] in H; [discriminate|].
  apply bind_inv in H. destruct H as (r & s1 & H1 & H).
  apply parse_step_events in H1. destruct H1 as [[e1 E1] Hn].
  destruct r as [db1|].
  - apply IH in H. destruct H as (Hi & mid & db' & cs & E).
    split; [exact Hi|]. exists (e1 ++ mid), db', cs.
    rewrite E, E1, <- !app_assoc. reflexivity.
  - unfold ret in H. injection H as <-.
    destruct (Hn eq_refl) as (Hi & cs & E).
    split; [exact Hi|]. exists [], db, cs. exact E.
Qed.

Lemma verify_magic_prefix i u r : verify_magic i = Ok (u, r) -> firstn 5 i = RDB_MAGIC.
Proof.
  unfold verify_magic, read_partial. intros H. kev.
  injection H0 as <- _.
  match goal with
  | E : (if list_eq_dec _ ?a ?b then true else false) = true |- _ =>
      destruct (list_eq_dec Byte.byte_eq_dec a b) as [E'|E']; [exact E' | discriminate E]
  end.
Qed.

Lemma sfx_refl i : sfx i i.
Proof. exists []. reflexivity. Qed.

Lemma sfx_trans i j k : sfx i j -> sfx j k -> sfx i k.
Proof. intros [p ->] [q ->]. exists (p ++ q). apply app_assoc. Qed.

Lemma sfx_of_eq i r : r = i -> sfx i r.
Proof. intros ->. apply sfx_refl. Qed.

Lemma read_u8_sfx i a r : read_u8 i = Ok (a, r) -> sfx i r.
Proof.
  unfold read_u8. destruct i as [|b i]; intros H; [discriminate|].
  injection H as _ <-. exists [b]. reflexivity.
Qed.

Lemma read_exact_sfx n i a r : read_exact n i = Ok (a, r) -> sfx i r.
Proof.
  unfold read_exact. destruct (_ && _); intros H; [|discriminate].
  injection H as _ <-. exists (firstn (Z.to_nat n) i). symmetry. apply firstn_skipn.
Qed.

Lemma read_partial_sfx n i a r : read_partial n i = Ok (a, r) -> sfx i r.
Proof.
  unfold read_partial. intros H. injection H as _ <-.
  exists (firstn n i). symmetry. apply firstn_skipn.
Qed.

Lemma read_to_end_sfx i a r : read_to_end i = Ok (a, r) -> sfx i r.
Proof. unfold read_to_end. intros H. injection H as _ <-. exists i. symmetry. apply app_nil_r. Qed.

Lemma emit_sfx e s a s' : emit e s = Ok (a, s') -> sfx (input s) (input s').
Proof. intros H. apply sfx_of_eq. exact (emit_input _ _ _ _ H). Qed.

Lemma set_expiretime_sfx o s a s' : set_expiretime o s = Ok (a, s') -> sfx (input s) (input s').
Proof. intros H. apply set_expiretime_events in H. apply sfx_of_eq. apply H. Qed.

Lemma repeatM_sfx (body : RM unit) :
  (forall i a r, body i = Ok (a, r) -> sfx i r) ->
  forall n i a r, repeatM n body i = Ok (a, r) -> sfx i r.
Proof.
  intros Hb n. induction n as [|n IH]; intros i a r H; cbn [repeatM] in H.
  - unfold ret in H. injection H as _ <-. apply sfx_refl.
  - apply bind_inv in H. destruct H as (u & j & H1 & H).
    exact (sfx_trans _ _ _ (Hb _ _ _ H1) (IH _ _ _ H)).
Qed.

Lemma repeatM_isfx (body : M unit) :
  (forall s a s', body s = Ok (a, s') -> sfx (input s) (input s')) ->
  forall n s a s', repeatM n body s = Ok (a, s') -> sfx (input s) (input s').
Proof.
  intros Hb n. induction n as [|n IH]; intros s a s' H; cbn [repeatM] in H.
  - unfold ret in H. injection H as _ <-. apply sfx_refl.
  - apply bind_inv in H. destruct H as (u & s1 & H1 & H).
    exact (sfx_trans _ _ _ (Hb _ _ _ H1) (IH _ _ _ H)).
Qed.

Ltac sfx_close :=
  repeat match goal with
  | H1 : sfx ?a ?b, H2 : sfx ?b ?c |- _ =>
      pose proof (sfx_trans _ _ _ H1 H2); clear H1 H2
  end;
  first [ assumption | apply sfx_refl ].

(** Turns every step of a run into a [sfx] fact; [leaf] handles the readers
    already known to leave a suffix. *)
Ltac ksfx_with leaf :=
  repeat match goal with
  | H : bind _ _ _ = Ok (_, _) |- _ =>
      apply bind_inv in H; destruct H as (? & ? & ? & H); cbv beta iota zeta in H
  | H : ret _ _ = Ok _ |- _ => unfold ret in H; injection H; clear H; intros; subst
  | H : fail _ _ = Ok _ |- _ => discriminate H
  | x : unit |- _ => destruct x
  | H : unwrap_or_panic _ _ = Ok _ |- _ => apply unwrap_or_panic_inv in H
  | H : read_u8 _ = Ok _ |- _ => apply read_u8_sfx in H
  | H : read_exact _ _ = Ok _ |- _ => apply read_exact_sfx in H
  | H : read_partial _ _ = Ok _ |- _ => apply read_partial_sfx in H
  | H : read_to_end _ = Ok _ |- _ => apply read_to_end_sfx in H
  | H : read_le _ _ = Ok _ |- _ => unfold read_le in H
  | H : read_be _ _ = Ok _ |- _ => unfold read_be in H
  | H : read_i8 _ = Ok _ |- _ => unfold read_i8 in H
  | H : read_i16_le _ = Ok _ |- _ => unfold read_i16_le in H
  | H : read_i32_le _ = Ok _ |- _ => unfold read_i32_le in H
  | H : read_u32_be _ = Ok _ |- _ => unfold read_u32_be in H
  | H : read_u64_le _ = Ok _ |- _ => unfold read_u64_le in H
  | H : read_f64_le _ = Ok _ |- _ => unfold read_f64_le in H
  | H : skip _ _ = Ok _ |- _ => unfold skip in H
  | H : emit _ _ = Ok _ |- _ => apply emit_sfx in H
  | H : set_expiretime _ _ = Ok _ |- _ => apply set_expiretime_sfx in H
  | H : get_expiretime _ = Ok _ |- _ => apply get_expiretime_input in H; subst
  | H : liftR _ _ = Ok _ |- _ => apply liftR_input in H; subst
  | H : liftI _ _ = Ok _ |- _ => apply liftI_inv in H
  | H : check_end_byte _ _ _ = Ok _ |- _ => apply check_end_byte_input, sfx_of_eq in H
  | H : assert_even _ _ = Ok _ |- _ => apply assert_even_input, sfx_of_eq in H
  | H : unwrap_f64 _ _ = Ok _ |- _ => apply unwrap_f64_input, sfx_of_eq in H
  | H : zipmap_loop _ _ _ _ _ = Ok _ |- _ => apply zipmap_loop_input, sfx_of_eq in H
  | H : iter_reader _ _ _ _ = Ok _ |- _ =>
      apply iter_reader_input in H;
      [ apply sfx_of_eq in H
      | clear H; intros ? ? ? ? H; kin;
        repeat match goal with
        | H : unwrap_f64 _ _ = Ok _ |- _ => apply unwrap_f64_input in H
        end; congruence ]
  | H : repeatM _ _ _ = Ok _ |- _ =>
      first [ apply repeatM_sfx in H; [| clear H; intros ? ? ? H; ksfx_with leaf; sfx_close]
            | apply repeatM_isfx in H; [| clear H; intros ? ? ? H; ksfx_with leaf; sfx_close] ]
  | H : _ = Ok _ |- _ => leaf H
  | H : (match ?x with _ => _ end) _ = Ok _ |- _ => destruct x; cbv beta iota zeta in H
  end.

Lemma read_length_with_encoding_sfx i a r :
  read_length_with_encoding i = Ok (a, r) -> sfx i r.
Proof.
  unfold read_length_with_encoding. intros H.
  ksfx_with ltac:(fun H => fail); sfx_close.
Qed.

Lemma read_length_sfx i a r : read_length i = Ok (a, r) -> sfx i r.
Proof.
  unfold read_length. intros H.
  ksfx_with ltac:(fun H => apply read_length_with_encoding_sfx in H); sfx_close.
Qed.

Ltac leaf_length H :=
  first [ apply read_length_with_encoding_sfx in H | apply read_length_sfx in H ].

Lemma read_blob_sfx lzf i a r : read_blob lzf i = Ok (a, r) -> sfx i r.
Proof. unfold read_blob. intros H. ksfx_with leaf_length; sfx_close. Qed.

Lemma skip_blob_sfx i a r : skip_blob i = Ok (a, r) -> sfx i r.
Proof. unfold skip_blob. intros H. ksfx_with leaf_length; sfx_close. Qed.

Ltac leaf_skip H := first [ leaf_length H | apply skip_blob_sfx in H ].

Lemma skip_object_sfx t i a r : skip_object t i = Ok (a, r) -> sfx i r.
Proof. unfold skip_object. intros H. ksfx_with leaf_skip; sfx_close. Qed.

Lemma skip_key_and_object_sfx t i a r : skip_key_and_object t i = Ok (a, r) -> sfx i r.
Proof.
  unfold skip_key_and_object. intros H.
  ksfx_with ltac:(fun H => first [ leaf_skip H | apply skip_object_sfx in H ]); sfx_close.
Qed.

Ltac leaf_reader H :=
  first [ leaf_skip H | apply read_blob_sfx in H | apply skip_object_sfx in H
        | apply skip_key_and_object_sfx in H ].

Lemma read_type_sfx lzf pf key t s a s' :
  read_type lzf pf key t s = Ok (a, s') -> sfx (input s) (input s').
Proof.
  intros H.
  unfold read_type, read_linked_list, read_sorted_set, read_sorted_set_type_2, read_hash,
    read_hash_zipmap, read_list_ziplist, read_set_intset, read_sortedset_ziplist,
    read_hash_ziplist, read_quicklist, read_quicklist_ziplist in H.
  ksfx_with leaf_reader; sfx_close.
Qed.

Lemma parse_step_sfx lzf pf filter db s r s' :
  parse_step lzf pf filter db s = Ok (r, s') -> r <> None -> sfx (input s) (input s').
Proof.
  intros H Hr. unfold parse_step in H.
  ksfx_with ltac:(fun H => first [ leaf_reader H | apply read_type_sfx in H ]).
  all: first [ congruence | sfx_close ].
Qed.

Lemma u8_255 b : u8 b = 255 -> b = bz 255.
Proof. destruct b; vm_compute; first [reflexivity | discriminate]. Qed.

(** The step that ends the loop read the EOF opcode [0xFF]; what followed
    it is the checksum. *)
Lemma parse_step_eof lzf pf filter db s r s' :
  parse_step lzf pf filter db s = Ok (r, s') -> r = None ->
  exists cs, input s = bz 255 :: cs /\
    events s' = events s ++ [EndDatabase db; EndRdb] ++ checksum_events cs.
Proof.
  intros H Hr. unfold parse_step in H.
  apply bind_inv in H. destruct H as (op & s1 & H1 & H).
  pose proof (liftI_events _ _ _ _ H1) as E1. apply liftI_inv in H1.
  unfold read_u8 in H1. destruct (input s) as [|b cs] eqn:Ei; [discriminate|].
  injection H1 as <- Ei1.
  destruct (Z.eq_dec (u8 b) 255) as [Hb|Hb].
  - exists cs. split; [rewrite (u8_255 b Hb); reflexivity|].
    rewrite Hb in H. kev.
    all: match goal with
         | H : read_to_end _ = Ok _ |- _ => unfold read_to_end in H; injection H as <- _
         end.
    all: match goal with
         | E : Nat.ltb 0 (List.length (input ?c)) = _ |- _ =>
             replace (input s1) with (input c) by congruence;
             unfold checksum_events; rewrite E
         end.
    all: repeat match goal with
         | E : events ?a = _ |- context [events ?a] => rewrite E
         end; rewrite <- ?app_assoc; rewrite ?app_nil_r; reflexivity.
  - exfalso. kev.
    all: first [ congruence | lia ].
Qed.

(** A successful loop ends with a step that returns [None]; every step before
    it left a suffix of its input and only added events. *)
Lemma parse_loop_last_step lzf pf filter : forall fuel db s s',
  parse_loop lzf pf filter fuel db s = Ok (tt, s') ->
  exists sk db' mid,
    sfx (input s) (input sk) /\ events sk = events s ++ mid /\
    parse_step lzf pf filter db' sk = Ok (None, s').
Proof.
  induction fuel as [|fuel IH]; intros db s s' H; cbn [parse_loop] in H; [discriminate|].
  apply bind_inv in H. destruct H as (r & s1 & H1 & H).
  destruct r as [db1|].
  - destruct (IH _ _ _ H) as (sk & db' & mid & Hs & Ev & Hk).
    pose proof (parse_step_sfx _ _ _ _ _ _ _ H1 ltac:(discriminate)) as Hs1.
    destruct (proj1 (parse_step_events _ _ _ _ _ _ _ H1)) as [e1 E1].
    exists sk, db', (e1 ++ mid). split; [exact (sfx_trans _ _ _ Hs1 Hs)|]. split; [|exact Hk].
    rewrite Ev, E1, app_assoc. reflexivity.
  - unfold ret in H. injection H as <-.
    exists s, db, []. split; [apply sfx_refl|]. split; [symmetry; apply app_nil_r|exact H1].
Qed.

(** X20: a successful [parse] has read its whole input, which begins with the
    magic [REDIS]; the loop ends with a step that reads the EOF opcode
    [0xFF] at some position of the input; the events begin with [StartRdb]
    and end with [EndDatabase db], [EndRdb] and, when bytes follow that
    opcode, one [Checksum] holding exactly those bytes. *)
Theorem run_parse_success_shape lzf pf mn mx filter bytes s' :
  run_parse lzf pf mn mx filter bytes = Ok (tt, s') ->
  input s' = [] /\ firstn 5 bytes = RDB_MAGIC /\
  exists pre sk db mid cs,
    bytes = pre ++ bz 255 :: cs /\ input sk = bz 255 :: cs /\
    parse_step lzf pf filter db sk = Ok (None, s') /\
    events sk = StartRdb :: mid /\
    events s' = StartRdb :: mid ++ [EndDatabase db; EndRdb] ++ checksum_events cs.
Proof.
  unfold run_parse, parse. intros H.
  apply bind_inv in H. destruct H as (u1 & s1 & H1 & H).
  apply bind_inv in H. destruct H as (u2 & s2 & H2 & H).
  apply bind_inv in H. destruct H as (u3 & s3 & H3 & H).
  apply bind_inv in H. destruct H as (n & s4 & H4 & H).
  pose proof (liftI_events _ _ _ _ H1) as E1. apply liftI_inv in H1.
  pose proof (verify_magic_prefix _ _ _ H1) as Hm.
  pose proof (liftI_events _ _ _ _ H2) as E2. apply liftI_inv in H2.
  assert (S1 : sfx bytes (input s3)).
  { unfold verify_magic, verify_version in *. cbn [input] in H1.
    ksfx_with ltac:(fun H => fail). sfx_close. }
  apply emit_events in H3. destruct H3 as [E3 _].
  apply input_length_state in H4. destruct H4 as [-> _].
  pose proof (parse_loop_events _ _ _ _ _ _ _ H) as [Hi _].
  destruct (parse_loop_last_step _ _ _ _ _ _ _ H) as (sk & db & mid & Sk & Ek & Hk).
  destruct (parse_step_eof _ _ _ _ _ _ _ Hk eq_refl) as (cs & Ic & Ec).
  destruct (sfx_trans _ _ _ S1 Sk) as [pre Hpre].
  split; [exact Hi|]. split; [exact Hm|].
  rewrite E3, E2, E1 in Ek. cbn [events] in Ek.
  exists pre, sk, db, mid, cs.
  split; [rewrite Hpre, Ic; reflexivity|]. split; [exact Ic|]. split; [exact Hk|].
  split; [exact Ek|]. rewrite Ec, Ek. reflexivity.
Qed.

(** X10: a HASH_ZIPLIST or ZSET_ZIPLIST blob whose header counts an odd
    number of entries makes the reader panic on its evenness assertion. *)
Theorem ziplist_odd_count_panics lzf pf key zlbytes zltail zllen entries rest ev exp :
  List.length zlbytes = 4%nat -> List.length zltail = 4%nat ->
  0 <= zllen < 65536 -> zllen mod 2 = 1 ->
  Z.of_nat (List.length (zlbytes ++ zltail ++ le_bytes 2 zllen ++ entries)) < 2 ^ 32 ->
  read_hash_ziplist lzf key
    (mkPState (encode_blob (zlbytes ++ zltail ++ le_bytes 2 zllen ++ entries) ++ rest) ev exp)
  = Err (Panic "assertion failed: zllen % 2 == 0")
  /\ read_sortedset_ziplist lzf pf key
    (mkPState (encode_blob (zlbytes ++ zltail ++ le_bytes 2 zllen ++ entries) ++ rest) ev exp)
  = Err (Panic "assertion failed: zllen % 2 == 0").
Proof.
  intros H1 H2 Hn Hodd Hb. split.
  - unfold read_hash_ziplist.
    rewrite bind_step with (a := zlbytes ++ zltail ++ le_bytes 2 zllen ++ entries)
      (s' := mkPState rest ev exp) by (apply blob_ok_step; exact Hb).
    cbv beta zeta.
    rewrite bind_step with
      (a := ((le_value zlbytes, le_value zltail, zllen mod 2 ^ 16), entries))
      (s' := mkPState rest ev exp)
      by (unfold liftR; rewrite read_ziplist_metadata_bytes by assumption; reflexivity).
    cbv beta iota. rewrite (Z.mod_small _ (2 ^ 16)) by lia.
    unfold bind at 1, assert_even. rewrite Hodd. reflexivity.
  - unfold read_sortedset_ziplist.
    rewrite bind_step with (a := zlbytes ++ zltail ++ le_bytes 2 zllen ++ entries)
      (s' := mkPState rest ev exp) by (apply blob_ok_step; exact Hb).
    cbv beta zeta.
    rewrite bind_step with
      (a := ((le_value zlbytes, le_value zltail, zllen mod 2 ^ 16), entries))
      (s' := mkPState rest ev exp)
      by (unfold liftR; rewrite read_ziplist_metadata_bytes by assumption; reflexivity).
    cbv beta iota. rewrite (Z.mod_small _ (2 ^ 16)) by lia.
    exp_step. emit_step.
    unfold bind at 1, assert_even. rewrite Hodd. reflexivity.
Qed.

(** ** Concrete instances of the properties above *)

Ltac wit_side :=
  repeat (first [ apply Forall_cons | apply Forall_nil | split ]);
  vm_compute; first [ reflexivity | discriminate | intros; discriminate | lia ].

Lemma read_length_round_trip_witness :
  0 <= 300 < 2 ^ 32 /\
  read_length_with_encoding (encode_length 300 ++ bl [7]) = Ok ((300, false), bl [7])
  /\ read_length (encode_length 300 ++ bl [7]) = Ok (300, bl [7]).
Proof. split; [wit_side | apply read_length_round_trip; wit_side]. Defined.

Lemma read_blob_plain_witness :
  Z.of_nat (List.length (bl [97; 98])) < 2 ^ 32 /\
  read_blob lzf_none (encode_blob (bl [97; 98]) ++ bl [7]) = Ok (bl [97; 98], bl [7]) /\
  Z.of_nat (List.length (bl [97])) < 3 < 2 ^ 32 /\
  read_blob lzf_none (encode_length 3 ++ bl [97]) = Err ShortRead.
Proof.
  split; [wit_side|]. split; [apply (proj1 (read_blob_plain lzf_none)); wit_side|].
  split; [wit_side|]. apply (proj2 (read_blob_plain lzf_none)); wit_side.
Defined.

Lemma read_blob_int_round_trip_witness :
  -128 <= -5 < 128 /\
  read_blob lzf_none (bz 192 :: le_bytes 1 (-5) ++ bl [7]) = Ok (int_to_vec (-5), bl [7]) /\
  -32768 <= 1000 < 32768 /\
  read_blob lzf_none (bz 193 :: le_bytes 2 1000 ++ bl [7]) = Ok (int_to_vec 1000, bl [7]) /\
  -2147483648 <= -70000 < 2147483648 /\
  read_blob lzf_none (bz 194 :: le_bytes 4 (-70000) ++ bl [7])
  = Ok (int_to_vec (-70000), bl [7]).
Proof.
  split; [wit_side|]. split; [apply (read_blob_int_round_trip lzf_none (-5) (bl [7])); wit_side|].
  split; [wit_side|]. split; [apply (read_blob_int_round_trip lzf_none 1000 (bl [7])); wit_side|].
  split; [wit_side|]. apply (read_blob_int_round_trip lzf_none (-70000) (bl [7])); wit_side.
Defined.

Lemma verify_magic_spec_witness :
  verify_magic (RDB_MAGIC ++ bl [48]) = Ok (tt, bl [48]) /\
  lt (List.length (bl [82; 69])) 5%nat /\
  verify_magic (bl [82; 69]) = Err (Other "Could not read enough bytes for the magic") /\
  le 5%nat (List.length (bl [82; 69; 68; 73; 88])) /\
  firstn 5 (bl [82; 69; 68; 73; 88]) <> RDB_MAGIC /\
  verify_magic (bl [82; 69; 68; 73; 88]) = Err (Other "Invalid magic string").
Proof.
  split; [apply (proj1 verify_magic_spec); reflexivity|].
  split; [wit_side|]. split; [apply (proj1 (proj2 verify_magic_spec)); wit_side|].
  split; [wit_side|]. split; [wit_side|].
  apply (proj2 (proj2 verify_magic_spec)); wit_side.
Defined.

Lemma verify_version_digits_witness :
  48 <= u8 (bz 48) <= 57 /\ 48 <= u8 (bz 57) <= 57 /\
  verify_version 1 9 (bz 48 :: bz 48 :: bz 48 :: bz 57 :: bl [7])
  = if (1 <=? version_of (bz 48) (bz 48) (bz 48) (bz 57))
       && (version_of (bz 48) (bz 48) (bz 48) (bz 57) <=? 9)
    then Ok (tt, bl [7])
    else Err (Other "Version RDB files are not supported").
Proof.
  split; [wit_side|]. split; [wit_side|].
  apply verify_version_digits; wit_side.
Defined.

Lemma verify_version_short_witness :
  lt (List.length (bl [48; 48])) 4%nat /\
  verify_version 1 9 (bl [48; 48])
  = Err (Other "Could not read enough bytes for the version").
Proof. split; [wit_side | apply verify_version_short; wit_side]. Defined.

Lemma read_list_ziplist_round_trip_witness :
  Forall zl_ok [(bz 0, bl [97])] /\
  read_list_ziplist lzf_none key_k
    (mkPState (encode_blob (ziplist_blob (bl [0; 0; 0; 0]) (bl [0; 0; 0; 0]) 1
                              (List.concat (map ziplist_entry_str [(bz 0, bl [97])])) [])
               ++ bl [7]) [] None)
  = Ok (tt, mkPState (bl [7])
              ([] ++ [StartList key_k 1 None
                        (Ziplist (Z.of_nat (List.length
                           (ziplist_blob (bl [0; 0; 0; 0]) (bl [0; 0; 0; 0]) 1
                              (List.concat (map ziplist_entry_str [(bz 0, bl [97])])) []))))]
                  ++ map (fun e => ListElement key_k (snd e)) [(bz 0, bl [97])]
                  ++ [EndList key_k]) None).
Proof.
  split; [wit_side|].
  apply (read_list_ziplist_round_trip lzf_none key_k (bl [0; 0; 0; 0]) (bl [0; 0; 0; 0])
           [(bz 0, bl [97])] [] (bl [7]) [] None); wit_side.
Defined.

Lemma read_hash_ziplist_round_trip_witness :
  Forall zl_pair_ok [((bz 0, bl [97]), (bz 0, bl [98]))] /\
  read_hash_ziplist lzf_none key_k
    (mkPState (encode_blob (ziplist_blob (bl [0; 0; 0; 0]) (bl [0; 0; 0; 0]) (2 * 1)
                 (List.concat (map ziplist_pair_str [((bz 0, bl [97]), (bz 0, bl [98]))])) [])
               ++ bl [7]) [] None)
  = Ok (tt, mkPState (bl [7])
              ([] ++ [StartHash key_k 1 None
                        (Ziplist (Z.of_nat (List.length
                           (ziplist_blob (bl [0; 0; 0; 0]) (bl [0; 0; 0; 0]) (2 * 1)
                              (List.concat (map ziplist_pair_str
                                 [((bz 0, bl [97]), (bz 0, bl [98]))])) []))))]
                  ++ map (fun fv => HashElement key_k (snd (fst fv)) (snd (snd fv)))
                       [((bz 0, bl [97]), (bz 0, bl [98]))]
                  ++ [EndHash key_k]) None).
Proof.
  split; [wit_side|].
  apply (read_hash_ziplist_round_trip lzf_none key_k (bl [0; 0; 0; 0]) (bl [0; 0; 0; 0])
           [((bz 0, bl [97]), (bz 0, bl [98]))] [] (bl [7]) [] None); wit_side.
Defined.

Lemma ziplist_odd_count_panics_witness :
  1 mod 2 = 1 /\
  read_hash_ziplist lzf_none key_k
    (mkPState (encode_blob (bl [0; 0; 0; 0] ++ bl [0; 0; 0; 0] ++ le_bytes 2 1 ++ bl [0; 1; 97; 255])
               ++ bl [7]) [] None)
  = Err (Panic "assertion failed: zllen % 2 == 0")
  /\ read_sortedset_ziplist lzf_none parse_f64_zero key_k
    (mkPState (encode_blob (bl [0; 0; 0; 0] ++ bl [0; 0; 0; 0] ++ le_bytes 2 1 ++ bl [0; 1; 97; 255])
               ++ bl [7]) [] None)
  = Err (Panic "assertion failed: zllen % 2 == 0").
Proof.
  split; [reflexivity|].
  apply (ziplist_odd_count_panics lzf_none parse_f64_zero key_k (bl [0; 0; 0; 0])
           (bl [0; 0; 0; 0]) 1 (bl [0; 1; 97; 255]) (bl [7]) [] None); wit_side.
Defined.


Lemma read_linked_list_round_trip_witness :
  Forall blob_ok [bl [97]; []] /\
  read_linked_list lzf_none key_k TList
    (mkPState (encode_length 2 ++ List.concat (map encode_blob [bl [97]; []]) ++ bl [7]) [] None)
  = Ok (tt, mkPState (bl [7])
              ([] ++ [StartList key_k 2 None LinkedList]
                  ++ map (ListElement key_k) [bl [97]; []] ++ [EndList key_k]) None)
  /\ read_linked_list lzf_none key_k TSet
    (mkPState (encode_length 2 ++ List.concat (map encode_blob [bl [97]; []]) ++ bl [7]) [] None)
  = Ok (tt, mkPState (bl [7])
              ([] ++ [StartSet key_k 2 None LinkedList]
                  ++ map (ListElement key_k) [bl [97]; []] ++ [EndSet key_k]) None).
Proof.
  split; [wit_side|].
  apply (read_linked_list_round_trip lzf_none key_k [bl [97]; []] (bl [7]) [] None); wit_side.
Defined.

Lemma read_hash_round_trip_witness :
  Forall blob_pair_ok [(bl [97], bl [98])] /\
  read_hash lzf_none key_k
    (mkPState (encode_length 1 ++ List.concat (map blob_pair [(bl [97], bl [98])]) ++ bl [7])
       [] None)
  = Ok (tt, mkPState (bl [7])
              ([] ++ [StartHash key_k 1 None Hashtable]
                  ++ map (fun fv => HashElement key_k (fst fv) (snd fv)) [(bl [97], bl [98])]
                  ++ [EndHash key_k]) None).
Proof.
  split; [wit_side|].
  apply (read_hash_round_trip lzf_none key_k [(bl [97], bl [98])] (bl [7]) [] None); wit_side.
Defined.

Lemma read_sorted_set_type_2_round_trip_witness :
  Forall zset2_ok [(bl [97], F64_INFINITY)] /\
  read_sorted_set_type_2 lzf_none key_k
    (mkPState (encode_length 1 ++ List.concat (map zset2_entry [(bl [97], F64_INFINITY)])
               ++ bl [7]) [] None)
  = Ok (tt, mkPState (bl [7])
              ([] ++ [StartSortedSet key_k 1 None Hashtable]
                  ++ map (fun m => SortedSetElement key_k (snd m) (fst m))
                       [(bl [97], F64_INFINITY)]
                  ++ [EndSortedSet key_k]) None).
Proof.
  split; [wit_side|].
  apply (read_sorted_set_type_2_round_trip lzf_none key_k [(bl [97], F64_INFINITY)]
           (bl [7]) [] None); wit_side.
Defined.

Lemma read_sorted_set_round_trip_witness :
  Forall (zset_ok parse_f64_zero) [(bl [97], bl [48], 0)] /\
  read_sorted_set lzf_none parse_f64_zero key_k
    (mkPState (encode_length 1 ++ List.concat (map zset_entry [(bl [97], bl [48], 0)])
               ++ bl [7]) [] None)
  = Ok (tt, mkPState (bl [7])
              ([] ++ [StartSortedSet key_k 1 None Hashtable]
                  ++ map (fun '(m, _, f) => SortedSetElement key_k f m) [(bl [97], bl [48], 0)]
                  ++ [EndSortedSet key_k]) None).
Proof.
  split; [wit_side|].
  apply (read_sorted_set_round_trip lzf_none parse_f64_zero key_k [(bl [97], bl [48], 0)]
           (bl [7]) [] None); wit_side.
Defined.

Lemma read_set_intset_round_trip_witness :
  Forall (intset_ok 2) [5; -3] /\
  read_set_intset lzf_none key_k (mkPState (encode_blob (intset_blob 2 [5; -3] []) ++ bl [7]) [] None)
  = Ok (tt, mkPState (bl [7])
              ([] ++ [StartSet key_k (Z.of_nat (List.length [5; -3])) None
                        (Intset (Z.of_nat (List.length (intset_blob 2 [5; -3] []))))]
                  ++ map (fun x => SetElement key_k (to_string x)) [5; -3] ++ [EndSet key_k]) None).
Proof.
  split; [wit_side|].
  apply (read_set_intset_round_trip lzf_none key_k 2 [5; -3] [] (bl [7]) [] None); wit_side.
Defined.

Lemma read_set_intset_bad_size_witness :
  3 <> 2 /\ 3 <> 4 /\ 3 <> 8 /\
  read_set_intset lzf_none key_k
    (mkPState (encode_blob (le_bytes 4 3 ++ le_bytes 4 1 ++ bl [1; 2; 3]) ++ bl [7]) [] None)
  = Err (Panic "unhandled byte size in intset").
Proof.
  split; [wit_side|]. split; [wit_side|]. split; [wit_side|].
  apply (read_set_intset_bad_size lzf_none key_k 3 1 (bl [1; 2; 3]) (bl [7]) [] None); wit_side.
Defined.


Lemma read_type_skip_object_witness :
  4 <> 3 /\
  read_type lzf_none parse_f64_zero key_k 4 (mkPState (bl [1; 1; 97; 1; 98; 7]) [] None)
  = Ok (tt, mkPState (bl [7])
              [StartHash key_k 1 None Hashtable; HashElement key_k (bl [97]) (bl [98]);
               EndHash key_k] None) /\
  skip_object 4 (bl [1; 1; 97; 1; 98; 7]) = Ok (tt, bl [7]).
Proof.
  split; [wit_side|]. split; [reflexivity|].
  exact (read_type_skip_object lzf_none parse_f64_zero key_k 4
           (mkPState (bl [1; 1; 97; 1; 98; 7]) [] None)
           (mkPState (bl [7])
              [StartHash key_k 1 None Hashtable; HashElement key_k (bl [97]) (bl [98]);
               EndHash key_k] None)
           ltac:(discriminate) ltac:(vm_compute; reflexivity) eq_refl).
Defined.

Lemma run_parse_success_shape_witness :
  run_parse lzf_none parse_f64_zero 1 9 allow_all (rdb_header ++ bl [255; 1; 2])
  = Ok (tt, mkPState [] [StartRdb; EndDatabase 0; EndRdb; Checksum (bl [1; 2])] None) /\
  input (mkPState [] [StartRdb; EndDatabase 0; EndRdb; Checksum (bl [1; 2])] None) = [] /\
  firstn 5 (rdb_header ++ bl [255; 1; 2]) = RDB_MAGIC /\
  exists pre sk db mid cs,
    rdb_header ++ bl [255; 1; 2] = pre ++ bz 255 :: cs /\ input sk = bz 255 :: cs /\
    parse_step lzf_none parse_f64_zero allow_all db sk
    = Ok (None, mkPState [] [StartRdb; EndDatabase 0; EndRdb; Checksum (bl [1; 2])] None) /\
    events sk = StartRdb :: mid /\
    [StartRdb; EndDatabase 0; EndRdb; Checksum (bl [1; 2])]
    = StartRdb :: mid ++ [EndDatabase db; EndRdb] ++ checksum_events cs.
Proof.
  split; [reflexivity|].
  exact (run_parse_success_shape lzf_none parse_f64_zero 1 9 allow_all
           (rdb_header ++ bl [255; 1; 2])
           (mkPState [] [StartRdb; EndDatabase 0; EndRdb; Checksum (bl [1; 2])] None) eq_refl).
Defined.

Lemma read_length_with_encoding_shape_witness :
  read_length_with_encoding (bl [65; 2; 7]) = Ok ((258, false), bl [7]) /\
  (read_length_with_encoding (bl [65; 2; 7]) = Err ShortRead \/
   exists p r len enc,
     read_length_with_encoding (bl [65; 2; 7]) = Ok ((len, enc), r) /\ bl [65; 2; 7] = p ++ r /\
     (List.length p = 1 \/ List.length p = 2 \/ List.length p = 5)%nat /\
     0 <= len < 2 ^ 32 /\ (enc = true -> List.length p = 1%nat /\ len < 64)).
Proof. split; [reflexivity | exact (read_length_with_encoding_shape (bl [65; 2; 7]))]. Defined.
